(** * PredictedProcess: memoised, cancellable child-process runs

    Shallow embedding of [src/PredictedProcess.ts].  The class owns a
    memoisation table ([memoizedCache]) and one asynchronous method, [run],
    whose body is split by its single [await].  The embedding follows the
    JavaScript event loop: every synchronous stretch of code (the body of
    [run] up to the [await], an event handler, the continuation after the
    [await]) is one atomic transition of a [World]. *)

From Stdlib Require Import ZArith Ascii.
From stdpp Require Import base option strings gmap list pretty.

Open Scope string_scope.
Open Scope list_scope.
Open Scope nat_scope.

(** ** JavaScript values and promises *)

(** The values that can travel through [reject] and [throw] in this file.
    [JsClass] stands for a constructor function, the only kind of value
    on which the [new] operator succeeds. *)
Inductive JsValue : Type :=
| DOMException (message name : string)
| NodeError (message : string)
| TypeError (message : string)
| JsClass (name : string)
| JsInstance (class : string).

Global Instance JsValue_eq_dec : EqDecision JsValue.
Proof. solve_decision. Defined.

(** [new v]: the constructed object on the left, the thrown exception on
    the right. *)
Definition js_new (v : JsValue) : JsValue + JsValue :=
  match v with
  | JsClass c => inl (JsInstance c)
  | _ => inr (TypeError "error is not a constructor")
  end.

(** [throw new v]: whatever ends up being thrown. *)
Definition throw_new (v : JsValue) : JsValue :=
  match js_new v with
  | inl o => o
  | inr e => e
  end.

Inductive PromiseState : Type :=
| Pending
| Fulfilled
| Rejected (reason : JsValue).

Global Instance PromiseState_eq_dec : EqDecision PromiseState.
Proof. solve_decision. Defined.

(** [resolve()] and [reject(e)] of a promise executor: only the first
    settlement counts. *)
Definition resolve (p : PromiseState) : PromiseState :=
  match p with
  | Pending => Fulfilled
  | _ => p
  end.

Definition reject (e : JsValue) (p : PromiseState) : PromiseState :=
  match p with
  | Pending => Rejected e
  | _ => p
  end.

(** ** Child processes *)

Definition EXIT_CODE : Z := 0%Z.

(** What the class can observe or change on a [ChildProcess]: whether
    [kill()] was called on it, and which of the two handlers of the run
    that spawned it are attached. *)
Record ChildProcess : Type := {
  killed : bool;
  onClose : bool;
  onError : bool
}.

(** [spawn(command)] when it returns a child (see [run_spawn_throws] for
    when it throws), followed by the two [child.on] calls. *)
Definition spawn (command : string) : ChildProcess :=
  {| killed := false; onClose := false; onError := false |}.

Definition on_close (c : ChildProcess) : ChildProcess :=
  {| killed := killed c; onClose := true; onError := onError c |}.

Definition on_error (c : ChildProcess) : ChildProcess :=
  {| killed := killed c; onClose := onClose c; onError := true |}.

Definition kill (c : ChildProcess) : ChildProcess :=
  {| killed := true; onClose := onClose c; onError := onError c |}.

Definition removeAllListeners (c : ChildProcess) : ChildProcess :=
  {| killed := killed c; onClose := false; onError := false |}.

(** ** Runs *)

(** Object references ([this]) and [AbortSignal] references. *)
Definition loc := nat.
Definition sigref := nat.

(** The closure created by one execution of the promise executor in [run]:
    the signal argument, the key, the child, whether [abortHandler] is
    attached to the signal, whether the 5000 ms timer is still armed, and
    the state of [promiseToSend]. *)
Record Execution : Type := {
  ex_signal : option sigref;
  ex_cacheKey : string;
  ex_child : ChildProcess;
  ex_abortListener : bool;
  ex_timer : bool;
  ex_promiseToSend : PromiseState
}.

(** One invocation of [run]: its execution, if it got as far as spawning,
    and the state of the promise it returned to its caller. *)
Record Call : Type := {
  execution : option Execution;
  result : PromiseState
}.

Definition set_child (c : ChildProcess) (x : Execution) : Execution :=
  {| ex_signal := ex_signal x; ex_cacheKey := ex_cacheKey x; ex_child := c;
     ex_abortListener := ex_abortListener x; ex_timer := ex_timer x;
     ex_promiseToSend := ex_promiseToSend x |}.

Definition set_promise (p : PromiseState) (x : Execution) : Execution :=
  {| ex_signal := ex_signal x; ex_cacheKey := ex_cacheKey x;
     ex_child := ex_child x; ex_abortListener := ex_abortListener x;
     ex_timer := ex_timer x; ex_promiseToSend := p |}.

Definition on_execution (f : Execution → Execution) (c : Call) : Call :=
  {| execution := f <$> execution c; result := result c |}.

Definition set_result (p : PromiseState) (c : Call) : Call :=
  {| execution := execution c; result := p |}.

(** ** The world: one [PredictedProcess] object and its environment *)

(** The fields of the object ([id], [command], [memoizedCache]; the field
    [_childProcess] is never assigned and is left out), the reference of
    the object itself, the signals that have been aborted so far, and every
    call of [run] made on the object, in call order.  A call during which
    [spawn] threw has no execution: the promise executor stopped at line
    97, so there is no child, no listener and no timer.  For such a call
    [thrown] keeps, under the number of the call, the key that the call
    stored at line 107 and the value that [spawn] threw, which is the
    reason [promiseToSend] was rejected with. *)

Record World : Type := {
  this : loc;
  id : Z;
  command : string;
  memoizedCache : gmap string loc;
  abortedSignals : gset sigref;
  calls : list Call;
  thrown : gmap nat (string * JsValue)
}.

Definition set_cache (m : gmap string loc) (w : World) : World :=
  {| this := this w; id := id w; command := command w; memoizedCache := m;
     abortedSignals := abortedSignals w; calls := calls w;
     thrown := thrown w |}.

Definition set_calls (l : list Call) (w : World) : World :=
  {| this := this w; id := id w; command := command w;
     memoizedCache := memoizedCache w; abortedSignals := abortedSignals w;
     calls := l; thrown := thrown w |}.

Definition set_aborted (s : gset sigref) (w : World) : World :=
  {| this := this w; id := id w; command := command w;
     memoizedCache := memoizedCache w; abortedSignals := s;
     calls := calls w; thrown := thrown w |}.

Definition set_thrown (t : gmap nat (string * JsValue)) (w : World) : World :=
  {| this := this w; id := id w; command := command w;
     memoizedCache := memoizedCache w; abortedSignals := abortedSignals w;
     calls := calls w; thrown := t |}.

Definition push_call (c : Call) (w : World) : World :=
  set_calls (calls w ++ [c]) w.

(** [new PredictedProcess(id, command)], allocated at reference [l]. *)
Definition constructor (l : loc) (i : Z) (cmd : string) : World :=
  {| this := l; id := i; command := cmd; memoizedCache := ∅;
     abortedSignals := ∅; calls := []; thrown := ∅ |}.

(** Number of processes spawned so far. *)
Definition spawnCount (w : World) : nat :=
  length (omap execution (calls w)).

(** ** The methods of the class *)

(** [signal?.aborted]: [None] is JavaScript's [undefined]. *)
Definition signal_aborted (w : World) (signal : option sigref) : option bool :=
  (λ s, bool_decide (s ∈ abortedSignals w)) <$> signal.

Definition truthy (v : option bool) : bool := default false v.

(** Template-literal rendering of [undefined], [true] and [false]. *)
Definition template (v : option bool) : string :=
  match v with
  | None => "undefined"
  | Some true => "true"
  | Some false => "false"
  end.

(** Ids are integers and are rendered in decimal.  That is how JavaScript
    renders a number that is a safe integer (of magnitude below 2^53);
    larger numbers and numbers that are not integers are outside the
    model. *)
Definition buildCacheKey (w : World) (signal : option sigref) : string :=
  pretty (id w) +:+ "_" +:+ template (signal_aborted w signal).

Definition handleAbortedSignal : PromiseState :=
  Rejected (DOMException "Signal already aborted!" "AbortError").

(** [handleAbortedSignalTriggeredDuringExecution]: arm the 5000 ms timer
    that will detach [abortHandler], then attach [abortHandler] to the
    signal when there is one. *)
Definition handleAbortedSignalTriggeredDuringExecution (x : Execution)
  : Execution :=
  {| ex_signal := ex_signal x; ex_cacheKey := ex_cacheKey x;
     ex_child := ex_child x;
     ex_abortListener := bool_decide (is_Some (ex_signal x));
     ex_timer := true;
     ex_promiseToSend := ex_promiseToSend x |}.

(** The promise executor of [run]: spawn, attach [closeHandler] and
    [errorHandler], subscribe to the signal. *)
Definition executor (w : World) (signal : option sigref) (cacheKey : string)
  : Execution :=
  handleAbortedSignalTriggeredDuringExecution
    {| ex_signal := signal;
       ex_cacheKey := cacheKey;
       ex_child := on_error (on_close (spawn (command w)));
       ex_abortListener := false;
       ex_timer := false;
       ex_promiseToSend := Pending |}.

(** [run(signal)] up to its first suspension or return.  The test
    [cacheKey in this.memoizedCache] is a lookup in the table: a key ends
    in [_undefined] or [_false], so it is never the name of a property
    inherited from [Object.prototype]. *)
Definition run (signal : option sigref) (w : World) : World :=
  if truthy (signal_aborted w signal) then
    push_call {| execution := None; result := handleAbortedSignal |} w
  else
    let cacheKey := buildCacheKey w signal in
    if bool_decide (is_Some (memoizedCache w !! cacheKey)) then
      push_call {| execution := None; result := Fulfilled |} w
    else
      let promiseToSend := executor w signal cacheKey in
      push_call {| execution := Some promiseToSend; result := Pending |}
        (set_cache (<[cacheKey := this w]> (memoizedCache w)) w).

(** [run(signal)] up to its first suspension or return, for a call during
    which [spawn(this.command)] throws [error] at line 97.  That is what
    [spawn] does with a command it refuses (the empty string, a string
    with a NUL byte) and with the failures of the operating system that it
    does not report through ['error'].  The guard and the lookup come
    first and are as in [run].  On a miss the exception leaves the
    executor before any handler is attached, and it rejects
    [promiseToSend]; line 107 then stores the key as usual and the call
    waits at its [await]. *)
Definition run_spawn_throws (signal : option sigref) (error : JsValue)
    (w : World) : World :=
  if truthy (signal_aborted w signal) then
    push_call {| execution := None; result := handleAbortedSignal |} w
  else
    let cacheKey := buildCacheKey w signal in
    if bool_decide (is_Some (memoizedCache w !! cacheKey)) then
      push_call {| execution := None; result := Fulfilled |} w
    else
      set_thrown (<[length (calls w) := (cacheKey, error)]> (thrown w))
        (push_call {| execution := None; result := Pending |}
           (set_cache (<[cacheKey := this w]> (memoizedCache w)) w)).

(** The rest of [run], after [await promiseToSend] for call number [r].
    The second case is that of a call whose [promiseToSend] was rejected by
    a throwing [spawn]. *)
Definition resume (r : nat) (w : World) : World :=
  match calls w !! r with
  | Some {| execution := Some x; result := Pending |} =>
      match ex_promiseToSend x with
      | Pending => w
      | Fulfilled => set_calls (alter (set_result Fulfilled) r (calls w)) w
      | Rejected error =>
          set_calls
            (alter (set_result (Rejected (throw_new error))) r (calls w))
            (set_cache (delete (ex_cacheKey x) (memoizedCache w)) w)
      end
  | Some {| execution := None; result := Pending |} =>
      match thrown w !! r with
      | Some (cacheKey, error) =>
          set_calls
            (alter (set_result (Rejected (throw_new error))) r (calls w))
            (set_cache (delete cacheKey (memoizedCache w)) w)
      | None => w
      end
  | _ => w
  end.

Definition memoize (w : World) : loc * World :=
  let cacheKey := pretty (id w) +:+ "_undefined" in
  match memoizedCache w !! cacheKey with
  | Some p => (p, w)
  | None => (this w, set_cache (<[cacheKey := this w]> (memoizedCache w)) w)
  end.

(** ** Event handlers *)

(** [event] is the first argument of the ['close'] event: the exit code,
    or [null] ([None]) when the process was ended by an OS signal.  The
    second test of the guard, [!child], is always false: [child] is the
    object returned by [spawn]. *)
Definition closeHandler (event : option Z) (x : Execution) : Execution :=
  if bool_decide (event ≠ Some EXIT_CODE) then x
  else
    set_promise (resolve (ex_promiseToSend x))
      (set_child (removeAllListeners (kill (ex_child x))) x).

Definition abortHandler (x : Execution) : Execution :=
  set_promise
    (reject (DOMException "Signal already aborted" "AbortError")
       (ex_promiseToSend x)) x.

Definition errorHandler (error : JsValue) (x : Execution) : Execution :=
  set_promise (reject error (ex_promiseToSend x)) x.

(** The callback given to [setTimeout]. *)
Definition timeoutHandler (x : Execution) : Execution :=
  {| ex_signal := ex_signal x; ex_cacheKey := ex_cacheKey x;
     ex_child := ex_child x; ex_abortListener := false; ex_timer := false;
     ex_promiseToSend := ex_promiseToSend x |}.

(** Delivery of an event to the listeners that are attached. *)
Definition emit_close (event : option Z) (x : Execution) : Execution :=
  if onClose (ex_child x) then closeHandler event x else x.

Definition emit_error (error : JsValue) (x : Execution) : Execution :=
  if onError (ex_child x) then errorHandler error x else x.

Definition emit_abort (s : sigref) (x : Execution) : Execution :=
  if bool_decide (ex_signal x = Some s) && ex_abortListener x
  then abortHandler x else x.

Definition fire_timer (x : Execution) : Execution :=
  if ex_timer x then timeoutHandler x else x.

(** ** The event loop *)

(** What can happen to the object: a caller invokes [run] or [memoize];
    the child of call [r] emits ['close'] or ['error']; a signal is
    aborted, which happens once per signal and reaches every call
    subscribed to it; the timer of call [r] fires; call [r] is resumed
    after its [await].  An event addressed to a call that does not exist,
    or that has no listener for it, changes nothing.  A call of [run] is
    [CallRun] when [spawn], if the call gets to it, returns a child, and
    [CallRunThrows] when it throws; which of the two happens is up to
    [child_process.spawn], so both are possible for every command. *)

Inductive Event : Type :=
| CallRun (signal : option sigref)
| CallMemoize
| ChildClose (r : nat) (code : option Z)
| ChildError (r : nat) (error : JsValue)
| SignalAbort (s : sigref)
| TimerFires (r : nat)
| Resume (r : nat)
| CallRunThrows (signal : option sigref) (error : JsValue).

Definition step (w : World) (e : Event) : World :=
  match e with
  | CallRun signal => run signal w
  | CallMemoize => (memoize w).2
  | ChildClose r code =>
      set_calls (alter (on_execution (emit_close code)) r (calls w)) w
  | ChildError r error =>
      set_calls (alter (on_execution (emit_error error)) r (calls w)) w
  | SignalAbort s =>
      if bool_decide (s ∈ abortedSignals w) then w
      else
        set_calls (on_execution (emit_abort s) <$> calls w)
          (set_aborted ({[s]} ∪ abortedSignals w) w)
  | TimerFires r =>
      set_calls (alter (on_execution fire_timer) r (calls w)) w
  | Resume r => resume r w
  | CallRunThrows signal error => run_spawn_throws signal error w
  end.

Definition steps (w : World) (es : list Event) : World :=
  foldl step w es.

(** The states of the object [new PredictedProcess(i, cmd)] that some
    schedule of calls and events reaches. *)
Definition reachable (l : loc) (i : Z) (cmd : string) (w : World) : Prop :=
  ∃ es, w = steps (constructor l i cmd) es.

(** ** The error taxonomy of the specification *)

Inductive RunError : Type :=
| AbortedBeforeStart
| AbortedDuringExecution
| ProcessError (cause : JsValue).

(** How the source raises each of the three errors: [handleAbortedSignal],
    [abortHandler] and [errorHandler]. *)
Definition raised (e : RunError) : JsValue :=
  match e with
  | AbortedBeforeStart => DOMException "Signal already aborted!" "AbortError"
  | AbortedDuringExecution => DOMException "Signal already aborted" "AbortError"
  | ProcessError cause => cause
  end.

(** The three strings [buildCacheKey] can return for the object with
    id [i]. *)
Definition noSignalKey (i : Z) : string := pretty i +:+ "_undefined".
Definition liveSignalKey (i : Z) : string := pretty i +:+ "_false".
Definition abortedSignalKey (i : Z) : string := pretty i +:+ "_true".

(** The child of every call, in call order. *)
Definition child_of (c : Call) : option ChildProcess :=
  ex_child <$> execution c.

Definition children (w : World) : list (option ChildProcess) :=
  child_of <$> calls w.

(** For every call, whether its [abortHandler] is attached to its signal. *)
Definition subscribed (c : Call) : option bool :=
  ex_abortListener <$> execution c.

Definition subscriptions (w : World) : list (option bool) :=
  subscribed <$> calls w.

(** Keys are the no-signal key or the live-signal key of the object, and
    every entry holds the object itself. *)
Definition cache_shape (w : World) : Prop :=
  dom (memoizedCache w) ⊆ {[noSignalKey (id w); liveSignalKey (id w)]}
  ∧ map_Forall (λ _ p, p = this w) (memoizedCache w).

(** ** Views of a call used by the general properties *)

(** What an event may do to a call that already exists: the key and the
    signal of its execution stay, and a promise that is settled keeps its
    state. *)
Definition evolves (c c' : Call) : Prop :=
  ex_cacheKey <$> execution c' = ex_cacheKey <$> execution c
  ∧ ex_signal <$> execution c' = ex_signal <$> execution c
  ∧ (result c ≠ Pending → result c' = result c)
  ∧ (∀ x, execution c = Some x → ex_promiseToSend x ≠ Pending →
          ex_promiseToSend <$> execution c' = Some (ex_promiseToSend x)).

(** A handler that leaves the key and the signal of an execution alone
    and does not touch a settled [promiseToSend]. *)
Definition gentle (f : Execution → Execution) : Prop :=
  ∀ x, ex_cacheKey (f x) = ex_cacheKey x
       ∧ ex_signal (f x) = ex_signal x
       ∧ (ex_promiseToSend x ≠ Pending →
          ex_promiseToSend (f x) = ex_promiseToSend x).

(** Whether an event spawns a process: a call of [run] that gets past the
    guard on the signal, misses the table and gets a child from [spawn].
    A call during which [spawn] throws is [CallRunThrows] and spawns
    nothing. *)
Definition spawns (w : World) (e : Event) : bool :=
  match e with
  | CallRun signal =>
      negb (truthy (signal_aborted w signal))
      && negb (bool_decide
                 (is_Some (memoizedCache w !! buildCacheKey w signal)))
  | _ => false
  end.

(** What holds of every execution the object ever has: the two handlers
    of the child are attached or detached together; the child is marked
    killed exactly when they are detached; a fulfilled [promiseToSend]
    means the child was killed; and [abortHandler] is attached only while
    the timer is armed and only when there is a signal. *)
Definition execution_ok (x : Execution) : Prop :=
  onError (ex_child x) = onClose (ex_child x)
  ∧ killed (ex_child x) = negb (onClose (ex_child x))
  ∧ (ex_promiseToSend x = Fulfilled → killed (ex_child x) = true)
  ∧ (ex_abortListener x = true → ex_timer x = true ∧ is_Some (ex_signal x)).

(** Where the state of the promise returned by [run] comes from.  [t] is
    the entry of [thrown] for the call, if there is one. *)
Definition result_ok (t : option (string * JsValue)) (c : Call) : Prop :=
  match execution c, result c with
  | None, Pending => is_Some t
  | None, Fulfilled => True
  | None, Rejected e =>
      match t with
      | None => e = raised AbortedBeforeStart
      | Some (_, error) => e = throw_new error
      end
  | Some x, Pending => True
  | Some x, Fulfilled => ex_promiseToSend x = Fulfilled
  | Some x, Rejected e =>
      ∃ cause, ex_promiseToSend x = Rejected cause ∧ e = throw_new cause
  end.

Definition call_ok (t : option (string * JsValue)) (c : Call) : Prop :=
  result_ok t c ∧ ∀ x, execution c = Some x → execution_ok x.

(** Every call is as [call_ok] says, and [thrown] has entries for calls
    that exist only. *)
Definition calls_ok (w : World) : Prop :=
  (∀ r c, calls w !! r = Some c → call_ok (thrown w !! r) c)
  ∧ (∀ r, is_Some (thrown w !! r) → r < length (calls w)).

(** The key that a call accounts for in the table: the key of a call that
    spawned and whose promise is pending or fulfilled, and the key of a
    call during which [spawn] threw and whose promise is still pending.
    The flying key is that of a call whose promise is still pending. *)
Definition held_key (t : option (string * JsValue)) (c : Call)
  : option string :=
  match execution c, result c with
  | Some x, Pending | Some x, Fulfilled => Some (ex_cacheKey x)
  | None, Pending => fst <$> t
  | _, _ => None
  end.

Definition flying_key (t : option (string * JsValue)) (c : Call)
  : option string :=
  match execution c, result c with
  | Some x, Pending => Some (ex_cacheKey x)
  | None, Pending => fst <$> t
  | _, _ => None
  end.

(** Every held key is in the table, and a flying key is held by no other
    call. *)
Definition keys_kept (w : World) : Prop :=
  (∀ r c k, calls w !! r = Some c → held_key (thrown w !! r) c = Some k →
            is_Some (memoizedCache w !! k))
  ∧ (∀ r r' c c' k,
       calls w !! r = Some c → calls w !! r' = Some c' →
       flying_key (thrown w !! r) c = Some k →
       held_key (thrown w !! r') c' = Some k → r = r').

(** The ids for which the decimal rendering of the model is the one of
    JavaScript: the safe integers, of magnitude below 2^53. *)
Definition safe_integer (z : Z) : Prop := (- 2 ^ 53 < z < 2 ^ 53)%Z.

(** Whether the character [a] is absent from the string [s]. *)
Fixpoint free_of (a : Ascii.ascii) (s : string) : bool :=
  match s with
  | EmptyString => true
  | String b s' => negb (Ascii.eqb a b) && free_of a s'
  end.


(** * Basic facts *)

Section Basics.

Implicit Types (w : World) (e : Event) (c : Call) (x : Execution).

Lemma set_calls_same w : set_calls (calls w) w = w.
Proof. by destruct w. Qed.

Lemma on_execution_fix (f : Execution → Execution) c :
  (∀ x, f x = x) → on_execution f c = c.
Proof.
  intros Hf. destruct c as [[x|] p]; unfold on_execution; simpl; [|done].
  by rewrite Hf.
Qed.


Lemma noSignalKey_ne_live i : noSignalKey i ≠ liveSignalKey i.
Proof. intros H. apply (inj (String.app _)) in H. discriminate. Qed.

Lemma abortedKey_ne_noSignal i : abortedSignalKey i ≠ noSignalKey i.
Proof. intros H. apply (inj (String.app _)) in H. discriminate. Qed.

Lemma abortedKey_ne_live i : abortedSignalKey i ≠ liveSignalKey i.
Proof. intros H. apply (inj (String.app _)) in H. discriminate. Qed.

(** Past the guard of [run], the key is one of two strings. *)
Lemma buildCacheKey_live w signal :
  truthy (signal_aborted w signal) = false →
  buildCacheKey w signal =
    match signal with
    | None => noSignalKey (id w)
    | Some _ => liveSignalKey (id w)
    end.
Proof.
  unfold buildCacheKey, signal_aborted, noSignalKey, liveSignalKey.
  destruct signal as [s|]; simpl; [|done].
  by intros ->.
Qed.

Lemma step_this w e : this (step w e) = this w.
Proof.
  destruct e; simpl; try done.
  - unfold run. repeat case_match; done.
  - unfold memoize. case_match; done.
  - case_bool_decide; done.
  - unfold resume. repeat case_match; done.
  - unfold run_spawn_throws. repeat case_match; done.
Qed.

Lemma step_id w e : id (step w e) = id w.
Proof.
  destruct e; simpl; try done.
  - unfold run. repeat case_match; done.
  - unfold memoize. case_match; done.
  - case_bool_decide; done.
  - unfold resume. repeat case_match; done.
  - unfold run_spawn_throws. repeat case_match; done.
Qed.

Lemma memoize_fills w :
  is_Some (memoizedCache (memoize w).2 !! noSignalKey (id w)).
Proof.
  unfold memoize. fold (noSignalKey (id w)).
  destruct (memoizedCache w !! noSignalKey (id w)) as [p|] eqn:Hk; simpl.
  - by rewrite Hk.
  - by rewrite lookup_insert_eq.
Qed.

Lemma steps_snoc w es e : steps w (es ++ [e]) = step (steps w es) e.
Proof. unfold steps. by rewrite foldl_snoc. Qed.

End Basics.

(** * The shape of the memoisation table *)

Section CacheShape.

Implicit Types (w : World) (e : Event).

Lemma cache_shape_insert w k :
  k ∈ ({[noSignalKey (id w); liveSignalKey (id w)]} : gset string) →
  cache_shape w →
  cache_shape (set_cache (<[k := this w]> (memoizedCache w)) w).
Proof.
  intros Hk [Hdom Hall]. split; simpl.
  - rewrite dom_insert_L. apply union_least; [|done].
    by apply singleton_subseteq_l.
  - by apply map_Forall_insert_2.
Qed.

Lemma cache_shape_delete w k :
  cache_shape w → cache_shape (set_cache (delete k (memoizedCache w)) w).
Proof.
  intros [Hdom Hall]. split; simpl.
  - rewrite dom_delete_L. by apply subseteq_difference_l.
  - by apply map_Forall_delete.
Qed.

Lemma cache_shape_calls w l : cache_shape w → cache_shape (set_calls l w).
Proof. done. Qed.

Lemma step_cache_shape w e : cache_shape w → cache_shape (step w e).
Proof.
  intros Hw.
  destruct e as [signal| |r code|r err|s|r|r|signal err]; simpl; try done.
  - unfold run. destruct (truthy (signal_aborted w signal)) eqn:Hab; [done|].
    case_bool_decide; [done|].
    apply (cache_shape_calls _ _), cache_shape_insert; [|done].
    rewrite (buildCacheKey_live _ _ Hab). destruct signal; set_solver.
  - unfold memoize. case_match; [done|].
    apply cache_shape_insert; [|done]. unfold noSignalKey. set_solver.
  - case_bool_decide; done.
  - unfold resume. repeat case_match; try done.
    + by apply (cache_shape_calls _ _), cache_shape_delete.
    + by apply (cache_shape_calls _ _), cache_shape_delete.
  - unfold run_spawn_throws.
    destruct (truthy (signal_aborted w signal)) eqn:Hab; [done|].
    case_bool_decide; [done|].
    change (cache_shape
              (set_cache (<[buildCacheKey w signal := this w]>
                            (memoizedCache w)) w)).
    apply cache_shape_insert; [|done].
    rewrite (buildCacheKey_live _ _ Hab). destruct signal; set_solver.
Qed.

Lemma steps_cache_shape w es : cache_shape w → cache_shape (steps w es).
Proof.
  induction es as [|e es IH] using rev_ind; [done|].
  intros Hw. rewrite steps_snoc. by apply step_cache_shape, IH.
Qed.

Lemma steps_this w es : this (steps w es) = this w.
Proof.
  induction es as [|e es IH] using rev_ind; [done|].
  by rewrite steps_snoc, step_this.
Qed.

Lemma steps_id w es : id (steps w es) = id w.
Proof.
  induction es as [|e es IH] using rev_ind; [done|].
  by rewrite steps_snoc, step_id.
Qed.

Lemma constructor_cache_shape l i cmd : cache_shape (constructor l i cmd).
Proof.
  split; simpl.
  - rewrite dom_empty_L. set_solver.
  - apply map_Forall_empty.
Qed.

End CacheShape.

(** * Claims about the memoisation table *)

(** C10: in every state that the object created with id [i] at reference
    [l] can reach, the keys of [memoizedCache] are among the two strings
    [i_undefined] and [i_false]; there is no entry under [i_true]; the table
    has at most two entries; every entry holds the object itself; and the
    key that [memoize] fills is the no-signal key. *)
Theorem reachable_cache_keys l i cmd w :
  reachable l i cmd w →
  dom (memoizedCache w) ⊆ {[noSignalKey i; liveSignalKey i]}
  ∧ memoizedCache w !! abortedSignalKey i = None
  ∧ (size (memoizedCache w) ≤ 2)%nat
  ∧ map_Forall (λ _ p, p = l) (memoizedCache w)
  ∧ is_Some (memoizedCache (memoize w).2 !! noSignalKey i).
Proof.
  intros [es ->].
  destruct (steps_cache_shape (constructor l i cmd) es
              (constructor_cache_shape l i cmd)) as [Hdom Hall].
  rewrite steps_id in Hdom. rewrite steps_this in Hall.
  simpl in Hdom, Hall.
  split_and!; [done| | |done|].
  - apply not_elem_of_dom. intros Hin. apply Hdom in Hin.
    apply elem_of_union in Hin as [Hin|Hin]; apply elem_of_singleton in Hin.
    + by apply abortedKey_ne_noSignal in Hin.
    + by apply abortedKey_ne_live in Hin.
  - rewrite <- size_dom. etrans; [apply subseteq_size, Hdom|].
    rewrite size_union, !size_singleton; [done|].
    apply disjoint_singleton_l. rewrite elem_of_singleton.
    apply noSignalKey_ne_live.
  - pose proof (memoize_fills (steps (constructor l i cmd) es)) as Hm.
    by rewrite steps_id in Hm.
Qed.

Lemma reachable_cache_keys_witness :
  reachable 7 1 "sleep 5" (steps (constructor 7 1 "sleep 5")
                             [CallMemoize; CallRun (Some 0)])
  ∧ (size (memoizedCache (steps (constructor 7 1 "sleep 5")
                            [CallMemoize; CallRun (Some 0)])) ≤ 2)%nat.
Proof.
  split; [by eexists|].
  apply (reachable_cache_keys 7 1 "sleep 5"). by eexists.
Defined.

(** * Claims about [run] *)

Section Run.

Implicit Types (w : World) (e : Event) (c : Call) (x : Execution).

Lemma spawnCount_push w c :
  spawnCount (push_call c w) =
    (spawnCount w + match execution c with Some _ => 1 | None => 0 end)%nat.
Proof.
  unfold spawnCount, push_call. simpl.
  rewrite omap_app, length_app. f_equal.
  unfold omap, list_omap. by destruct (execution c).
Qed.

Lemma spawnCount_set_cache w m : spawnCount (set_cache m w) = spawnCount w.
Proof. done. Qed.

(** A call served from the table: fulfilled on the spot, nothing spawned,
    the table untouched. *)
Lemma run_hit w signal :
  truthy (signal_aborted w signal) = false →
  is_Some (memoizedCache w !! buildCacheKey w signal) →
  run signal w = push_call {| execution := None; result := Fulfilled |} w.
Proof.
  intros Hab Hin. unfold run. rewrite Hab. by rewrite bool_decide_eq_true_2.
Qed.

(** A call that misses the table: the key is stored and a process is
    spawned. *)
Lemma run_miss w signal :
  truthy (signal_aborted w signal) = false →
  memoizedCache w !! buildCacheKey w signal = None →
  run signal w =
    push_call
      {| execution := Some (executor w signal (buildCacheKey w signal));
         result := Pending |}
      (set_cache (<[buildCacheKey w signal := this w]> (memoizedCache w)) w).
Proof.
  intros Hab Hin. unfold run. rewrite Hab.
  rewrite bool_decide_eq_false_2; [done|].
  rewrite Hin. by intros [? ?].
Qed.

(** The continuation after the [await], by the state of [promiseToSend]. *)
Lemma resume_rejected w r x cause :
  calls w !! r = Some {| execution := Some x; result := Pending |} →
  ex_promiseToSend x = Rejected cause →
  resume r w =
    set_calls (alter (set_result (Rejected (throw_new cause))) r (calls w))
      (set_cache (delete (ex_cacheKey x) (memoizedCache w)) w).
Proof. intros Hc Hx. unfold resume. by rewrite Hc, Hx. Qed.

Lemma resume_pending w r x :
  calls w !! r = Some {| execution := Some x; result := Pending |} →
  ex_promiseToSend x = Pending →
  resume r w = w.
Proof. intros Hc Hx. unfold resume. by rewrite Hc, Hx. Qed.





(** C7: when the signal passed to [run] is already aborted, the promise
    returned by the call is rejected at once with the already-aborted
    [AbortError]; no call record with a child is added, so no process is
    spawned; the memoisation table is left as it was; and the call behaves
    the same whatever the table holds, so it is not consulted either. *)
Theorem run_aborted_before_start w s :
  s ∈ abortedSignals w →
  calls (step w (CallRun (Some s))) =
    calls w ++ [{| execution := None;
                   result := Rejected (raised AbortedBeforeStart) |}]
  ∧ spawnCount (step w (CallRun (Some s))) = spawnCount w
  ∧ children (step w (CallRun (Some s))) = children w ++ [None]
  ∧ memoizedCache (step w (CallRun (Some s))) = memoizedCache w
  ∧ ∀ m, step (set_cache m w) (CallRun (Some s)) =
          set_cache m (step w (CallRun (Some s))).
Proof.
  intros Hs.
  assert (∀ m, run (Some s) (set_cache m w) =
               push_call {| execution := None; result := handleAbortedSignal |}
                 (set_cache m w)) as Hrun.
  { intros m. unfold run, signal_aborted. simpl.
    by rewrite bool_decide_eq_true_2. }
  assert (step w (CallRun (Some s)) =
          push_call {| execution := None; result := handleAbortedSignal |} w)
    as Hstep.
  { specialize (Hrun (memoizedCache w)).
    by replace (set_cache (memoizedCache w) w) with w in Hrun by by destruct w. }
  rewrite Hstep. split_and!.
  - done.
  - rewrite spawnCount_push. simpl. lia.
  - unfold children, push_call. simpl. by rewrite fmap_app.
  - done.
  - intros m. simpl. by rewrite Hrun.
Qed.

Lemma run_aborted_before_start_witness :
  0%nat ∈ abortedSignals (step (constructor 7 1 "sleep 5") (SignalAbort 0))
  ∧ spawnCount (steps (constructor 7 1 "sleep 5")
                  [SignalAbort 0; CallRun (Some 0%nat)]) = 0%nat.
Proof.
  split; [by vm_compute|].
  apply (run_aborted_before_start
           (step (constructor 7 1 "sleep 5") (SignalAbort 0)) 0%nat).
  by vm_compute.
Defined.




End Run.

(** * Where the source departs from its documentation *)

Section Departures.

Implicit Types (w : World) (e : Event) (c : Call) (x : Execution).

Lemma fmap_alter_fix {A B} (f : A → B) (g : A → A) (i : nat) (l : list A) :
  (∀ a, f (g a) = f a) → f <$> alter g i l = f <$> l.
Proof.
  intros Hfg. revert i. induction l as [|a l IH]; intros [|i]; csimpl; try done.
  - by rewrite Hfg.
  - by rewrite IH.
Qed.

Lemma fmap_fmap_fix {A B} (f : A → B) (g : A → A) (l : list A) :
  (∀ a, f (g a) = f a) → f <$> (g <$> l) = f <$> l.
Proof.
  intros Hfg. rewrite <- list_fmap_compose. apply list_fmap_ext.
  intros _ a _. apply Hfg.
Qed.

Lemma child_of_on_execution (f : Execution → Execution) c :
  (∀ x, ex_child (f x) = ex_child x) →
  child_of (on_execution f c) = child_of c.
Proof.
  intros Hf. destruct c as [[x|] p]; unfold child_of; simpl; [|done].
  by rewrite Hf.
Qed.

Lemma subscribed_on_execution (f : Execution → Execution) c :
  (∀ x, ex_abortListener (f x) = ex_abortListener x) →
  subscribed (on_execution f c) = subscribed c.
Proof.
  intros Hf. destruct c as [[x|] p]; unfold subscribed; simpl; [|done].
  by rewrite Hf.
Qed.

Lemma ex_child_emit_error error x : ex_child (emit_error error x) = ex_child x.
Proof. unfold emit_error. by case_match. Qed.

Lemma ex_child_emit_abort s x : ex_child (emit_abort s x) = ex_child x.
Proof. unfold emit_abort. by case_match. Qed.

Lemma ex_child_fire_timer x : ex_child (fire_timer x) = ex_child x.
Proof. unfold fire_timer. by case_match. Qed.

Lemma ex_abortListener_emit_close code x :
  ex_abortListener (emit_close code x) = ex_abortListener x.
Proof. unfold emit_close, closeHandler. by repeat case_match. Qed.

Lemma ex_abortListener_emit_error error x :
  ex_abortListener (emit_error error x) = ex_abortListener x.
Proof. unfold emit_error. by case_match. Qed.

Lemma ex_abortListener_emit_abort s x :
  ex_abortListener (emit_abort s x) = ex_abortListener x.
Proof. unfold emit_abort. by case_match. Qed.

Lemma children_resume w r : children (resume r w) = children w.
Proof.
  unfold resume, children. repeat case_match; simpl; try done;
    by apply fmap_alter_fix.
Qed.

Lemma subscriptions_resume w r : subscriptions (resume r w) = subscriptions w.
Proof.
  unfold resume, subscriptions. repeat case_match; simpl; try done;
    by apply fmap_alter_fix.
Qed.

(** C1: two calls of [run] on a fresh object with the same signal (or both
    without one), the second made while the first is in flight.  One
    process is spawned, but the second call is fulfilled at once while the
    first is still pending, and it stays fulfilled when the child then
    emits ['error'] and the first call is rejected. *)
Theorem concurrent_runs_settle_apart l i cmd signal error :
  spawnCount (steps (constructor l i cmd) [CallRun signal; CallRun signal]) = 1
  ∧ result <$> calls (steps (constructor l i cmd)
                        [CallRun signal; CallRun signal])
    = [Pending; Fulfilled]
  ∧ result <$> calls (steps (constructor l i cmd)
                        [CallRun signal; CallRun signal;
                         ChildError 0 error; Resume 0])
    = [Rejected (throw_new error); Fulfilled]
  ∧ throw_new (NodeError "spawn ENOENT")
    = TypeError "error is not a constructor".
Proof.
  assert (truthy (signal_aborted (constructor l i cmd) signal) = false) as Hab.
  { by destruct signal. }
  unfold steps; simpl.
  rewrite (run_miss _ _ Hab) by done.
  set (k := buildCacheKey (constructor l i cmd) signal).
  set (w1 := push_call _ _).
  assert (truthy (signal_aborted w1 signal) = false) as Hab1 by done.
  assert (buildCacheKey w1 signal = k) as Hk by done.
  rewrite (run_hit _ _ Hab1)
    by (rewrite Hk; unfold w1; simpl; by rewrite lookup_insert_eq).
  by split_and!.
Qed.

(** C2: two different signals, neither of them aborted, are given the same
    key by [buildCacheKey]. *)
Theorem distinct_signals_share_key w s1 s2 :
  s1 ≠ s2 → s1 ∉ abortedSignals w → s2 ∉ abortedSignals w →
  buildCacheKey w (Some s1) = buildCacheKey w (Some s2).
Proof.
  intros _ H1 H2. unfold buildCacheKey, signal_aborted. simpl.
  by rewrite !bool_decide_eq_false_2.
Qed.

Lemma distinct_signals_share_key_witness :
  buildCacheKey (constructor 7 1 "sleep 5") (Some 0) = "1_false"
  ∧ buildCacheKey (constructor 7 1 "sleep 5") (Some 0)
    = buildCacheKey (constructor 7 1 "sleep 5") (Some 1).
Proof.
  split; [by vm_compute|].
  apply (distinct_signals_share_key (constructor 7 1 "sleep 5") 0 1).
  - lia.
  - by vm_compute.
  - by vm_compute.
Defined.

(** C3: a ['close'] event whose exit code is not [0] changes nothing: the
    promise of the run stays pending and the key stays in the table. *)
Theorem nonzero_exit_is_ignored w r code :
  code ≠ Some EXIT_CODE → step w (ChildClose r code) = w.
Proof.
  intros Hcode. simpl. rewrite list_alter_id; [apply set_calls_same|].
  intros c. apply on_execution_fix. intros x.
  unfold emit_close, closeHandler. rewrite bool_decide_eq_true_2 by done.
  by case_match.
Qed.

Lemma nonzero_exit_is_ignored_witness :
  Some 1%Z ≠ Some EXIT_CODE
  ∧ step (step (constructor 7 1 "false") (CallRun None))
      (ChildClose 0 (Some 1%Z))
    = step (constructor 7 1 "false") (CallRun None).
Proof.
  split; [done|].
  by apply (nonzero_exit_is_ignored
              (step (constructor 7 1 "false") (CallRun None)) 0 (Some 1%Z)).
Defined.

(** C4: after [memoize()], a call of [run] without a signal is fulfilled at
    once and spawns nothing, in whatever state the object was. *)
Theorem memoize_then_run_spawns_nothing w :
  spawnCount (steps w [CallMemoize; CallRun None]) = spawnCount w
  ∧ calls (steps w [CallMemoize; CallRun None]) =
      calls w ++ [{| execution := None; result := Fulfilled |}].
Proof.
  unfold steps. simpl.
  assert (calls (memoize w).2 = calls w) as Hcalls
    by (unfold memoize; by case_match).
  assert (id (memoize w).2 = id w) as Hid by apply (step_id w CallMemoize).
  rewrite run_hit.
  - rewrite spawnCount_push. unfold spawnCount, push_call. simpl.
    rewrite Hcalls. split; [lia|done].
  - done.
  - rewrite buildCacheKey_live by done. rewrite Hid. apply memoize_fills.
Qed.

(** C5: the signal of a run in flight is aborted.  The promise of the run
    is rejected, but with a [TypeError] instead of the [AbortError] that
    [abortHandler] raised, and the child is neither killed nor stripped of
    its listeners; only the table entry goes.  Once the timer has fired,
    aborting the signal no longer affects the run at all. *)
Theorem abort_during_run_skips_kill w s r c x :
  s ∉ abortedSignals w →
  calls w !! r = Some c → execution c = Some x → result c = Pending →
  ex_signal x = Some s → ex_abortListener x = true → ex_timer x = true →
  ex_promiseToSend x = Pending →
  calls (steps w [SignalAbort s; Resume r]) !! r =
    Some {| execution := Some (abortHandler x);
            result := Rejected (TypeError "error is not a constructor") |}
  ∧ ex_promiseToSend (abortHandler x) =
      Rejected (raised AbortedDuringExecution)
  ∧ children (steps w [SignalAbort s; Resume r]) = children w
  ∧ memoizedCache (steps w [SignalAbort s; Resume r]) !! ex_cacheKey x = None
  ∧ result <$> calls (steps w [TimerFires r; SignalAbort s; Resume r]) !! r
    = Some Pending.
Proof.
  intros Hs Hc Hx Hp Hsig Hal Htm Hpr.
  destruct c as [ex p]; simpl in Hx, Hp; subst ex p.
  destruct x as [sg k ch al tm pr]; simpl in Hsig, Hal, Htm, Hpr; subst.
  unfold steps; simpl. rewrite !bool_decide_eq_false_2 by done.
  set (w1 := set_calls (on_execution (emit_abort s) <$> calls w)
               (set_aborted ({[s]} ∪ abortedSignals w) w)).
  assert (calls w1 !! r =
          Some {| execution :=
                    Some (abortHandler
                            {| ex_signal := Some s; ex_cacheKey := k;
                               ex_child := ch; ex_abortListener := true;
                               ex_timer := true;
                               ex_promiseToSend := Pending |});
                  result := Pending |}) as Hc1.
  { unfold w1; simpl. rewrite list_lookup_fmap, Hc. simpl.
    unfold on_execution, emit_abort; simpl.
    by rewrite bool_decide_eq_true_2. }
  split_and!.
  - rewrite (resume_rejected _ _ _ _ Hc1 eq_refl). cbn [calls set_calls].
    by rewrite list_lookup_alter_eq, Hc1.
  - done.
  - rewrite children_resume. unfold w1, children; simpl.
    apply fmap_fmap_fix. intros c. apply child_of_on_execution.
    apply ex_child_emit_abort.
  - rewrite (resume_rejected _ _ _ _ Hc1 eq_refl). apply lookup_delete_eq.
  - set (w2 := set_calls (on_execution (emit_abort s) <$>
                            alter (on_execution fire_timer) r (calls w))
                 (set_aborted ({[s]} ∪ abortedSignals w)
                    (set_calls (alter (on_execution fire_timer) r (calls w)) w))).
    assert (calls w2 !! r =
            Some {| execution :=
                      Some {| ex_signal := Some s; ex_cacheKey := k;
                              ex_child := ch; ex_abortListener := false;
                              ex_timer := false;
                              ex_promiseToSend := Pending |};
                    result := Pending |}) as Hc2.
    { unfold w2; simpl.
      rewrite list_lookup_fmap, list_lookup_alter_eq, Hc. simpl.
      unfold on_execution, emit_abort, fire_timer; simpl.
      by rewrite andb_false_r. }
    rewrite (resume_pending _ _ _ Hc2 eq_refl). by rewrite Hc2.
Qed.

Lemma abort_during_run_skips_kill_witness :
  children (steps (constructor 7 1 "sleep 5")
              [CallRun (Some 0); SignalAbort 0; Resume 0])
  = children (step (constructor 7 1 "sleep 5") (CallRun (Some 0)))
  ∧ children (step (constructor 7 1 "sleep 5") (CallRun (Some 0)))
    = [Some {| killed := false; onClose := true; onError := true |}].
Proof.
  split; [|by vm_compute].
  eapply (abort_during_run_skips_kill
            (step (constructor 7 1 "sleep 5") (CallRun (Some 0))) 0 0
            {| execution :=
                 Some (executor (constructor 7 1 "sleep 5") (Some 0) "1_false");
               result := Pending |}
            (executor (constructor 7 1 "sleep 5") (Some 0) "1_false"));
    by vm_compute.
Defined.

(** C6: the child emits ['error'] with an [Error] object while the run is
    in flight.  The promise returned by [run] is rejected with a
    [TypeError] raised by [throw new error], not with the object that the
    event carried. *)
Theorem process_error_cause_is_replaced w r c x msg :
  calls w !! r = Some c → execution c = Some x → result c = Pending →
  onError (ex_child x) = true → ex_promiseToSend x = Pending →
  result <$> calls (steps w [ChildError r (NodeError msg); Resume r]) !! r
    = Some (Rejected (TypeError "error is not a constructor"))
  ∧ Rejected (TypeError "error is not a constructor")
    ≠ Rejected (raised (ProcessError (NodeError msg))).
Proof.
  intros Hc Hx Hp Hon Hpr. split; [|done].
  destruct c as [ex p]; simpl in Hx, Hp; subst ex p.
  destruct x as [sg k [kd oc oe] al tm pr]; simpl in Hon, Hpr; subst.
  unfold steps; simpl.
  set (w1 := set_calls
               (alter (on_execution (emit_error (NodeError msg))) r (calls w))
               w).
  assert (calls w1 !! r =
          Some {| execution :=
                    Some {| ex_signal := sg; ex_cacheKey := k;
                            ex_child := {| killed := kd; onClose := oc;
                                           onError := true |};
                            ex_abortListener := al; ex_timer := tm;
                            ex_promiseToSend := Rejected (NodeError msg) |};
                  result := Pending |}) as Hc1.
  { unfold w1; simpl. by rewrite list_lookup_alter_eq, Hc. }
  rewrite (resume_rejected _ _ _ _ Hc1 eq_refl). cbn [calls set_calls].
  by rewrite list_lookup_alter_eq, Hc1.
Qed.

Lemma process_error_cause_is_replaced_witness :
  result <$> calls (steps (constructor 7 1 "exit 1")
                      [CallRun None;
                       ChildError 0 (NodeError "spawn exit 1 ENOENT");
                       Resume 0]) !! 0
  = Some (Rejected (TypeError "error is not a constructor")).
Proof.
  eapply (process_error_cause_is_replaced
            (step (constructor 7 1 "exit 1") (CallRun None)) 0
            {| execution :=
                 Some (executor (constructor 7 1 "exit 1") None "1_undefined");
               result := Pending |}
            (executor (constructor 7 1 "exit 1") None "1_undefined")
            "spawn exit 1 ENOENT");
    by vm_compute.
Defined.

(** C8: of all the events, only a ['close'] with exit code [0] touches a
    child: the ['error'] event, the abort of a signal, the timer and the
    continuation that rejects the run leave every child unkilled and with
    its listeners attached.  And [abortHandler] is detached by the timer
    only: neither the end of the process (either event) nor the abort nor
    the continuation of the run unsubscribes it. *)
Theorem failure_paths_skip_cleanup w r s code error :
  children (step w (ChildError r error)) = children w
  ∧ children (step w (SignalAbort s)) = children w
  ∧ children (step w (TimerFires r)) = children w
  ∧ children (step w (Resume r)) = children w
  ∧ subscriptions (step w (ChildClose r code)) = subscriptions w
  ∧ subscriptions (step w (ChildError r error)) = subscriptions w
  ∧ subscriptions (step w (SignalAbort s)) = subscriptions w
  ∧ subscriptions (step w (Resume r)) = subscriptions w
  ∧ children (steps (constructor 7 1 "sleep 5")
                [CallRun (Some 0);
                 ChildError 0 (NodeError "spawn sleep 5 ENOENT"); Resume 0])
    = [Some {| killed := false; onClose := true; onError := true |}]
  ∧ subscriptions (steps (constructor 7 1 "sleep 5")
                     [CallRun (Some 0); ChildClose 0 (Some 0%Z); Resume 0])
    = [Some true].
Proof.
  split_and!.
  - simpl. unfold children; simpl. apply fmap_alter_fix.
    intros c. apply child_of_on_execution, ex_child_emit_error.
  - simpl. case_bool_decide; [done|]. unfold children; simpl.
    apply fmap_fmap_fix.
    intros c. apply child_of_on_execution, ex_child_emit_abort.
  - simpl. unfold children; simpl. apply fmap_alter_fix.
    intros c. apply child_of_on_execution, ex_child_fire_timer.
  - apply children_resume.
  - simpl. unfold subscriptions; simpl. apply fmap_alter_fix.
    intros c. apply subscribed_on_execution, ex_abortListener_emit_close.
  - simpl. unfold subscriptions; simpl. apply fmap_alter_fix.
    intros c. apply subscribed_on_execution, ex_abortListener_emit_error.
  - simpl. case_bool_decide; [done|]. unfold subscriptions; simpl.
    apply fmap_fmap_fix.
    intros c. apply subscribed_on_execution, ex_abortListener_emit_abort.
  - apply subscriptions_resume.
  - by vm_compute.
  - by vm_compute.
Qed.

End Departures.

(** * General properties of the event loop *)

Section Stability.

Implicit Types (w : World) (e : Event) (c : Call) (x : Execution).

Lemma evolves_refl c : evolves c c.
Proof.
  split_and!; try done. intros x Hx _. by rewrite Hx.
Qed.

Lemma evolves_trans c1 c2 c3 : evolves c1 c2 → evolves c2 c3 → evolves c1 c3.
Proof.
  intros (Hk1 & Hs1 & Hr1 & Hp1) (Hk2 & Hs2 & Hr2 & Hp2). split_and!.
  - by rewrite Hk2.
  - by rewrite Hs2.
  - intros Hne. rewrite Hr2, Hr1; [done|done|]. by rewrite Hr1.
  - intros x Hx Hne. specialize (Hp1 x Hx Hne).
    destruct (execution c2) as [x2|] eqn:Hx2; simplify_eq/=.
    rewrite (Hp2 x2 eq_refl); [by f_equal|]. congruence.
Qed.

Lemma evolves_on_execution (f : Execution → Execution) c :
  gentle f → evolves c (on_execution f c).
Proof.
  intros Hf. destruct c as [[x|] p]; unfold evolves; simpl; [|done].
  destruct (Hf x) as (Hk & Hs & Hp). split_and!; try by f_equal.
  intros x' [= <-] Hne. f_equal. by apply Hp.
Qed.

Lemma gentle_emit_close code : gentle (emit_close code).
Proof.
  intros x. unfold emit_close, closeHandler.
  repeat case_match; simpl; split_and!; try done.
  by destruct (ex_promiseToSend x).
Qed.

Lemma gentle_emit_error error : gentle (emit_error error).
Proof.
  intros x. unfold emit_error, errorHandler.
  case_match; simpl; split_and!; try done.
  by destruct (ex_promiseToSend x).
Qed.

Lemma gentle_emit_abort s : gentle (emit_abort s).
Proof.
  intros x. unfold emit_abort, abortHandler.
  case_match; simpl; split_and!; try done.
  by destruct (ex_promiseToSend x).
Qed.

Lemma gentle_fire_timer : gentle fire_timer.
Proof. intros x. unfold fire_timer. by case_match. Qed.

Lemma lookup_alter_evolves (g : Call → Call) (l : list Call) r0 r c :
  (r0 = r → evolves c (g c)) →
  l !! r = Some c →
  ∃ c', alter g r0 l !! r = Some c' ∧ evolves c c'.
Proof.
  intros Hg Hc. destruct (decide (r0 = r)) as [->|Hne].
  - exists (g c). rewrite list_lookup_alter_eq, Hc. split; [done|by apply Hg].
  - exists c. rewrite list_lookup_alter_ne by done. split; [done|].
    apply evolves_refl.
Qed.

Lemma step_evolves w e r c :
  calls w !! r = Some c →
  ∃ c', calls (step w e) !! r = Some c' ∧ evolves c c'.
Proof.
  intros Hc.
  destruct e as [signal| |r0 code|r0 error|s|r0|r0|signal error]; simpl.
  - exists c. split; [|apply evolves_refl].
    unfold run. repeat case_match; simpl; by apply lookup_app_l_Some.
  - exists c. split; [|apply evolves_refl].
    unfold memoize. by case_match.
  - apply lookup_alter_evolves; [|done].
    intros _. apply evolves_on_execution, gentle_emit_close.
  - apply lookup_alter_evolves; [|done].
    intros _. apply evolves_on_execution, gentle_emit_error.
  - case_bool_decide; simpl.
    + exists c. split; [done|apply evolves_refl].
    + exists (on_execution (emit_abort s) c).
      rewrite list_lookup_fmap, Hc. split; [done|].
      apply evolves_on_execution, gentle_emit_abort.
  - apply lookup_alter_evolves; [|done].
    intros _. apply evolves_on_execution, gentle_fire_timer.
  - unfold resume.
    destruct (calls w !! r0) as [[[x0|] [| |e0]]|] eqn:Hc0;
      try (exists c; split; [done|apply evolves_refl]).
    + destruct (ex_promiseToSend x0) as [| |cause] eqn:Hx0; simpl.
      * exists c. split; [done|apply evolves_refl].
      * apply lookup_alter_evolves; [|done].
        intros ->. rewrite Hc in Hc0. injection Hc0 as ->.
        split_and!; simpl; try done. intros x [= <-] _. by f_equal.
      * apply lookup_alter_evolves; [|done].
        intros ->. rewrite Hc in Hc0. injection Hc0 as ->.
        split_and!; simpl; try done. intros x [= <-] _. by f_equal.
    + destruct (thrown w !! r0) as [[k0 cause]|]; simpl.
      * apply lookup_alter_evolves; [|done].
        intros ->. rewrite Hc in Hc0. injection Hc0 as ->.
        by split_and!.
      * exists c. split; [done|apply evolves_refl].
  - exists c. split; [|apply evolves_refl].
    unfold run_spawn_throws.
    repeat case_match; simpl; by apply lookup_app_l_Some.
Qed.

Lemma steps_evolves w es r c :
  calls w !! r = Some c →
  ∃ c', calls (steps w es) !! r = Some c' ∧ evolves c c'.
Proof.
  intros Hc. induction es as [|e es IH] using rev_ind.
  - exists c. split; [done|apply evolves_refl].
  - destruct IH as (c1 & Hc1 & Hev1). rewrite steps_snoc.
    destruct (step_evolves (steps w es) e r c1 Hc1) as (c2 & Hc2 & Hev2).
    exists c2. split; [done|]. by eapply evolves_trans.
Qed.

End Stability.

Section Runs.

Implicit Types (w : World) (e : Event) (c : Call) (x : Execution).

Lemma resume_fulfilled w r x :
  calls w !! r = Some {| execution := Some x; result := Pending |} →
  ex_promiseToSend x = Fulfilled →
  resume r w = set_calls (alter (set_result Fulfilled) r (calls w)) w.
Proof. intros Hc Hx. unfold resume. by rewrite Hc, Hx. Qed.

Lemma spawned_alter (g : Call → Call) i (l : list Call) :
  (∀ c, is_Some (execution (g c)) ↔ is_Some (execution c)) →
  length (omap execution (alter g i l)) = length (omap execution l).
Proof.
  intros Hg. revert i. induction l as [|c l IH]; intros [|i]; csimpl; try done.
  - specialize (Hg c).
    destruct (execution (g c)) as [?|], (execution c) as [?|]; simpl;
      try done; exfalso.
    + by apply (is_Some_None (A:=Execution)), Hg.
    + by apply (is_Some_None (A:=Execution)), Hg.
  - destruct (execution c); simpl; by rewrite IH.
Qed.

Lemma spawned_fmap (g : Call → Call) (l : list Call) :
  (∀ c, is_Some (execution (g c)) ↔ is_Some (execution c)) →
  length (omap execution (g <$> l)) = length (omap execution l).
Proof.
  intros Hg. induction l as [|c l IH]; csimpl; [done|].
  specialize (Hg c).
  destruct (execution (g c)) as [?|], (execution c) as [?|]; simpl;
    try (by rewrite IH); exfalso.
  - by apply (is_Some_None (A:=Execution)), Hg.
  - by apply (is_Some_None (A:=Execution)), Hg.
Qed.

Lemma is_Some_execution_on_execution (f : Execution → Execution) c :
  is_Some (execution (on_execution f c)) ↔ is_Some (execution c).
Proof. unfold on_execution; simpl. apply fmap_is_Some. Qed.

(** A settled promise stays as it is.  Along any sequence of events a
    call keeps its place in the list of calls, its execution keeps its key
    and its signal, the promise returned by [run] keeps its state once it
    is fulfilled or rejected, and so does [promiseToSend]: of an error
    and an abort, only the first one counts. *)
Theorem settlement_is_final w es r c :
  calls w !! r = Some c →
  ∃ c', calls (steps w es) !! r = Some c'
    ∧ (result c ≠ Pending → result c' = result c)
    ∧ (∀ x, execution c = Some x →
         ∃ x', execution c' = Some x'
           ∧ ex_cacheKey x' = ex_cacheKey x
           ∧ ex_signal x' = ex_signal x
           ∧ (ex_promiseToSend x ≠ Pending →
              ex_promiseToSend x' = ex_promiseToSend x)).
Proof.
  intros Hc. destruct (steps_evolves w es r c Hc) as (c' & Hc' & Hev).
  destruct Hev as (Hk & Hs & Hr & Hp).
  exists c'. split_and!; [done|done|].
  intros x Hx. rewrite Hx in Hk, Hs. simpl in Hk, Hs.
  destruct (execution c') as [x'|] eqn:Hx'; simplify_eq/=.
  exists x'. split_and!; try done.
  intros Hne. specialize (Hp x Hx Hne). by simplify_eq/=.
Qed.

Lemma settlement_is_final_witness :
  ∃ c', calls (steps (constructor 7 1 "sleep 5")
                 [CallRun (Some 0); ChildError 0 (NodeError "EPIPE");
                  SignalAbort 0; ChildClose 0 (Some 0%Z); Resume 0]) !! 0
        = Some c'
    ∧ ex_promiseToSend <$> execution c' = Some (Rejected (NodeError "EPIPE")).
Proof.
  destruct (settlement_is_final
              (steps (constructor 7 1 "sleep 5")
                 [CallRun (Some 0); ChildError 0 (NodeError "EPIPE")])
              [SignalAbort 0; ChildClose 0 (Some 0%Z); Resume 0] 0
              {| execution := Some (errorHandler (NodeError "EPIPE")
                   (executor (constructor 7 1 "sleep 5") (Some 0) "1_false"));
                 result := Pending |})
    as (c' & Hc' & _ & Hx); [by vm_compute|].
  exists c'. split; [exact Hc'|].
  destruct (Hx _ eq_refl) as (x' & -> & _ & _ & Hp).
  simpl. f_equal. by apply Hp.
Defined.

(** A process is spawned by a call of [run] that passes the guard on the
    signal, does not find its key in the table and gets a child from
    [spawn], and by nothing else: a call during which [spawn] throws,
    every other call and every event leave the number of spawned
    processes as it is. *)
Theorem spawn_exactly_on_miss w e :
  spawnCount (step w e) = spawnCount w + (if spawns w e then 1 else 0).
Proof.
  destruct e as [signal| |r0 code|r0 error|s|r0|r0|signal error]; simpl;
    rewrite ?Nat.add_0_r.
  - unfold run. destruct (truthy (signal_aborted w signal)); simpl.
    + rewrite spawnCount_push. simpl. lia.
    + case_bool_decide; simpl; rewrite spawnCount_push; simpl; [lia|].
      by rewrite spawnCount_set_cache.
  - unfold memoize. by case_match.
  - apply spawned_alter, is_Some_execution_on_execution.
  - apply spawned_alter, is_Some_execution_on_execution.
  - case_bool_decide; [done|].
    apply spawned_fmap, is_Some_execution_on_execution.
  - apply spawned_alter, is_Some_execution_on_execution.
  - unfold resume. repeat case_match; try done; by apply spawned_alter.
  - unfold run_spawn_throws. repeat case_match; simpl.
    + rewrite spawnCount_push. simpl. lia.
    + rewrite spawnCount_push. simpl. lia.
    + unfold spawnCount. simpl. rewrite omap_app, length_app. simpl. lia.
Qed.

(** For one object, two calls get the same key exactly when
    [signal?.aborted] reads the same for both: both without a signal, or
    both with a signal and the same flag.  The identity of the signal
    plays no part, and a signal that has been aborted since gets another
    key than before. *)
Theorem same_key_iff_same_flag w1 w2 s1 s2 :
  id w1 = id w2 →
  buildCacheKey w1 s1 = buildCacheKey w2 s2
  ↔ signal_aborted w1 s1 = signal_aborted w2 s2.
Proof.
  intros Hid. unfold buildCacheKey. rewrite Hid. split.
  - intros H. apply (inj (String.app _)) in H.
    apply (inj (String.app _)) in H.
    destruct (signal_aborted w1 s1) as [[]|],
             (signal_aborted w2 s2) as [[]|]; done.
  - by intros ->.
Qed.

Lemma same_key_iff_same_flag_witness :
  buildCacheKey (constructor 7 1 "sleep 5") (Some 0)
  ≠ buildCacheKey (step (constructor 7 1 "sleep 5") (SignalAbort 0)) (Some 0).
Proof.
  intros H.
  apply (same_key_iff_same_flag
           (constructor 7 1 "sleep 5")
           (step (constructor 7 1 "sleep 5") (SignalAbort 0))
           (Some 0) (Some 0)) in H; [|done].
  by vm_compute in H.
Defined.

End Runs.

Section Memoize.

Implicit Types (w : World) (e : Event) (c : Call) (x : Execution).

Lemma reachable_cache_shape l i cmd w :
  reachable l i cmd w → cache_shape w ∧ id w = i ∧ this w = l.
Proof.
  intros [es ->]. split_and!.
  - apply steps_cache_shape, constructor_cache_shape.
  - apply steps_id.
  - apply steps_this.
Qed.

(** [memoize()] returns the object it is called on, in whatever state the
    object is.  It makes no call and spawns nothing, it changes no slot of
    the table but the no-signal one, which holds the object afterwards,
    and calling it again changes nothing more. *)
Theorem memoize_returns_this l i cmd w :
  reachable l i cmd w →
  (memoize w).1 = l
  ∧ calls (memoize w).2 = calls w
  ∧ memoizedCache (memoize w).2 !! noSignalKey i = Some l
  ∧ (∀ k, k ≠ noSignalKey i →
          memoizedCache (memoize w).2 !! k = memoizedCache w !! k)
  ∧ memoize (memoize w).2 = (l, (memoize w).2).
Proof.
  intros Hw. destruct (reachable_cache_shape _ _ _ _ Hw)
    as ([_ Hall] & <- & <-).
  destruct (memoizedCache w !! noSignalKey (id w)) as [p|] eqn:Hk.
  - pose proof (Hall _ _ Hk) as Hp. simpl in Hp. subst p.
    assert (memoize w = (this w, w)) as ->.
    { unfold memoize. fold (noSignalKey (id w)). by rewrite Hk. }
    simpl. split_and!; try done.
    unfold memoize. fold (noSignalKey (id w)). by rewrite Hk.
  - assert (memoize w =
            (this w,
             set_cache (<[noSignalKey (id w) := this w]> (memoizedCache w)) w))
      as ->.
    { unfold memoize. fold (noSignalKey (id w)). by rewrite Hk. }
    simpl. split_and!; try done.
    + by rewrite lookup_insert_eq.
    + intros k Hne. by rewrite lookup_insert_ne.
    + unfold memoize. simpl. fold (noSignalKey (id w)).
      by rewrite lookup_insert_eq.
Qed.

Lemma memoize_returns_this_witness :
  (memoize (steps (constructor 7 1 "sleep 5")
              [CallRun None; ChildError 0 (NodeError "EPIPE"); Resume 0])).1
  = 7.
Proof.
  apply (memoize_returns_this 7 1 "sleep 5"). by eexists.
Defined.

(** [memoize()] does not change what a call of [run] with a live signal
    does: the call is served from the table, or spawns, exactly as it
    would have without the [memoize()] before it. *)
Theorem memoize_leaves_signal_runs_alone w s :
  s ∉ abortedSignals w →
  calls (steps w [CallMemoize; CallRun (Some s)])
  = calls (step w (CallRun (Some s)))
  ∧ spawnCount (steps w [CallMemoize; CallRun (Some s)])
    = spawnCount (step w (CallRun (Some s))).
Proof.
  intros Hs.
  assert (calls (steps w [CallMemoize; CallRun (Some s)])
          = calls (step w (CallRun (Some s)))) as Hcalls.
  { unfold steps; simpl. unfold memoize. fold (noSignalKey (id w)).
    destruct (memoizedCache w !! noSignalKey (id w)) as [p|] eqn:Hk;
      simpl; [done|].
    unfold run, signal_aborted, buildCacheKey; simpl.
    rewrite bool_decide_eq_false_2 by done. simpl.
    fold (liveSignalKey (id w)).
    rewrite lookup_insert_ne by apply noSignalKey_ne_live.
    by case_bool_decide. }
  split; [done|]. unfold spawnCount. by rewrite Hcalls.
Qed.

Lemma memoize_leaves_signal_runs_alone_witness :
  spawnCount (steps (constructor 7 1 "sleep 5")
                [CallMemoize; CallRun (Some 0)]) = 1.
Proof.
  etrans.
  - apply (memoize_leaves_signal_runs_alone (constructor 7 1 "sleep 5") 0).
    by vm_compute.
  - by vm_compute.
Defined.

End Memoize.

Section Handlers.

Implicit Types (w : World) (e : Event) (c : Call) (x : Execution).

(** The abort of a signal reaches the runs that are subscribed to that
    signal and no others: a call made without a signal, with another
    signal, or whose [abortHandler] has been detached by the timer is left
    exactly as it was, and the table is not touched. *)
Theorem abort_reaches_only_subscribers w s r c :
  calls w !! r = Some c →
  (∀ x, execution c = Some x →
        ex_signal x ≠ Some s ∨ ex_abortListener x = false) →
  calls (step w (SignalAbort s)) !! r = Some c
  ∧ memoizedCache (step w (SignalAbort s)) = memoizedCache w.
Proof.
  intros Hc Hx. simpl. case_bool_decide; simpl; [done|].
  split; [|done]. rewrite list_lookup_fmap, Hc. simpl. f_equal.
  destruct c as [[x|] p]; unfold on_execution; simpl; [|done].
  do 2 f_equal. unfold emit_abort.
  destruct (Hx x eq_refl) as [Hne| ->].
  - by rewrite bool_decide_eq_false_2.
  - by rewrite andb_false_r.
Qed.

Lemma abort_reaches_only_subscribers_witness :
  calls (steps (constructor 7 1 "sleep 5") [CallRun None; SignalAbort 0]) !! 0
  = Some {| execution :=
              Some (executor (constructor 7 1 "sleep 5") None "1_undefined");
            result := Pending |}.
Proof.
  eapply proj1, (abort_reaches_only_subscribers
                   (step (constructor 7 1 "sleep 5") (CallRun None)) 0 0).
  - by vm_compute.
  - intros x [= <-]. by right.
Defined.

(** The success path.  When the child of a run in flight closes with exit
    code [0] and the run is resumed, the promise returned by [run] is
    fulfilled, [kill()] and [removeAllListeners()] have been called on the
    child, and the table is as it was, so the key of the run is still
    there: a later call that computes this key is fulfilled at once and
    spawns nothing. *)
Theorem clean_exit_fulfils_and_memoises w r c x :
  calls w !! r = Some c → execution c = Some x → result c = Pending →
  onClose (ex_child x) = true → ex_promiseToSend x = Pending →
  is_Some (memoizedCache w !! ex_cacheKey x) →
  calls (steps w [ChildClose r (Some EXIT_CODE); Resume r]) !! r
  = Some {| execution := Some (closeHandler (Some EXIT_CODE) x);
            result := Fulfilled |}
  ∧ ex_child (closeHandler (Some EXIT_CODE) x)
    = {| killed := true; onClose := false; onError := false |}
  ∧ memoizedCache (steps w [ChildClose r (Some EXIT_CODE); Resume r])
    = memoizedCache w
  ∧ ∀ signal,
      truthy (signal_aborted
                (steps w [ChildClose r (Some EXIT_CODE); Resume r]) signal)
      = false →
      buildCacheKey (steps w [ChildClose r (Some EXIT_CODE); Resume r]) signal
      = ex_cacheKey x →
      step (steps w [ChildClose r (Some EXIT_CODE); Resume r]) (CallRun signal)
      = push_call {| execution := None; result := Fulfilled |}
          (steps w [ChildClose r (Some EXIT_CODE); Resume r]).
Proof.
  intros Hc Hx Hp Hon Hpr Hin.
  destruct c as [ex p]; simpl in Hx, Hp; subst ex p.
  change (steps w [ChildClose r (Some EXIT_CODE); Resume r])
    with (resume r (step w (ChildClose r (Some EXIT_CODE)))).
  set (w1 := step w (ChildClose r (Some EXIT_CODE))).
  assert (calls w1 !! r =
          Some {| execution := Some (closeHandler (Some EXIT_CODE) x);
                  result := Pending |}) as Hc1.
  { unfold w1; simpl. rewrite list_lookup_alter_eq, Hc. simpl.
    unfold on_execution, emit_close; simpl. by rewrite Hon. }
  assert (ex_promiseToSend (closeHandler (Some EXIT_CODE) x) = Fulfilled)
    as Hful.
  { unfold closeHandler.
    rewrite bool_decide_eq_false_2 by (by intros []). simpl.
    by rewrite Hpr. }
  rewrite (resume_fulfilled _ _ _ Hc1 Hful).
  split_and!.
  - cbn [calls set_calls]. by rewrite list_lookup_alter_eq, Hc1.
  - unfold closeHandler.
    by rewrite bool_decide_eq_false_2 by (by intros []).
  - done.
  - intros signal Hab Hkey. apply run_hit; [done|]. by rewrite Hkey.
Qed.

Lemma clean_exit_fulfils_and_memoises_witness :
  result <$> calls (steps (constructor 7 1 "exit 0")
                      [CallRun None; ChildClose 0 (Some 0%Z); Resume 0;
                       CallRun None])
  = [Fulfilled; Fulfilled].
Proof.
  change (steps (constructor 7 1 "exit 0")
            [CallRun None; ChildClose 0 (Some 0%Z); Resume 0; CallRun None])
    with (step (steps (step (constructor 7 1 "exit 0") (CallRun None))
                  [ChildClose 0 (Some EXIT_CODE); Resume 0]) (CallRun None)).
  destruct (clean_exit_fulfils_and_memoises
              (step (constructor 7 1 "exit 0") (CallRun None)) 0
              {| execution :=
                   Some (executor (constructor 7 1 "exit 0") None
                           "1_undefined");
                 result := Pending |}
              (executor (constructor 7 1 "exit 0") None "1_undefined"))
    as (_ & _ & _ & Hrun);
    [by vm_compute|done|done|done|done|vm_compute; by eexists|].
  rewrite (Hrun None) by by vm_compute.
  by vm_compute.
Defined.

End Handlers.

(** * Invariants of the calls *)

Section CallInvariant.

Implicit Types (w : World) (e : Event) (c : Call) (x : Execution).

Lemma reachable_ind_steps (P : World → Prop) l i cmd :
  P (constructor l i cmd) →
  (∀ w e, P w → P (step w e)) →
  ∀ w, reachable l i cmd w → P w.
Proof.
  intros Hinit Hstep w [es ->].
  induction es as [|e es IH] using rev_ind; [done|].
  rewrite steps_snoc. by apply Hstep.
Qed.

Lemma execution_ok_executor w signal k : execution_ok (executor w signal k).
Proof.
  unfold execution_ok, executor; simpl. split_and!; try done.
  intros H. split; [done|]. by apply bool_decide_eq_true in H.
Qed.

Lemma execution_ok_emit_close code x :
  execution_ok x → execution_ok (emit_close code x).
Proof.
  intros Hx. unfold emit_close, closeHandler.
  destruct (onClose (ex_child x)); [|done].
  case_bool_decide; [done|].
  destruct Hx as (H1 & H2 & H3 & H4).
  unfold execution_ok; simpl. by split_and!.
Qed.

Lemma execution_ok_emit_error error x :
  execution_ok x → execution_ok (emit_error error x).
Proof.
  intros Hx. unfold emit_error, errorHandler.
  destruct (onError (ex_child x)); [|done].
  destruct Hx as (H1 & H2 & H3 & H4).
  unfold execution_ok; simpl. split_and!; try done.
  intros Hp. apply H3. by destruct (ex_promiseToSend x).
Qed.

Lemma execution_ok_emit_abort s x :
  execution_ok x → execution_ok (emit_abort s x).
Proof.
  intros Hx. unfold emit_abort, abortHandler.
  destruct (bool_decide (ex_signal x = Some s) && ex_abortListener x);
    [|done].
  destruct Hx as (H1 & H2 & H3 & H4).
  unfold execution_ok; simpl. split_and!; try done.
  intros Hp. apply H3. by destruct (ex_promiseToSend x).
Qed.

Lemma execution_ok_fire_timer x :
  execution_ok x → execution_ok (fire_timer x).
Proof.
  intros Hx. unfold fire_timer, timeoutHandler.
  destruct (ex_timer x); [|done].
  destruct Hx as (H1 & H2 & H3 & H4).
  unfold execution_ok; simpl. by split_and!.
Qed.

Lemma call_ok_on_execution (f : Execution → Execution) t c :
  gentle f → (∀ x, execution_ok x → execution_ok (f x)) →
  call_ok t c → call_ok t (on_execution f c).
Proof.
  intros Hg Hf [Hres Hex]. destruct c as [[x|] p]; [|done].
  split.
  - unfold result_ok in *; simpl in *. destruct (Hg x) as (_ & _ & Hp).
    destruct p as [| |e]; [done| |].
    + rewrite Hp; [done|]. by rewrite Hres.
    + destruct Hres as (cause & Hc & ->). exists cause.
      rewrite Hp; [done|]. by rewrite Hc.
  - simpl. intros x' [= <-]. by apply Hf, Hex.
Qed.

Lemma lookup_alter_inv {A} (g : A → A) (l : list A) r0 r a' :
  alter g r0 l !! r = Some a' →
  ∃ a, l !! r = Some a ∧ ((r0 ≠ r ∧ a' = a) ∨ (r0 = r ∧ a' = g a)).
Proof.
  intros H. destruct (decide (r0 = r)) as [->|Hne].
  - rewrite list_lookup_alter_eq in H.
    destruct (l !! r) as [a|]; simplify_eq/=. exists a. eauto.
  - rewrite list_lookup_alter_ne in H by done. exists a'. eauto.
Qed.

(** A state with the same entries in [thrown] and as many calls, each of
    them as good as the one it comes from. *)
Lemma calls_ok_view w w' :
  thrown w' = thrown w →
  length (calls w') = length (calls w) →
  (∀ r c', calls w' !! r = Some c' →
     ∃ c, calls w !! r = Some c
          ∧ (call_ok (thrown w !! r) c → call_ok (thrown w !! r) c')) →
  calls_ok w → calls_ok w'.
Proof.
  intros Ht Hlen Hview [Hok Hdom]. split.
  - intros r c' Hc'. rewrite Ht.
    destruct (Hview r c' Hc') as (c & Hc & Himp). by apply Himp, Hok.
  - intros r. rewrite Ht, Hlen. apply Hdom.
Qed.

Lemma calls_ok_alter w r0 (f : Execution → Execution) :
  gentle f → (∀ x, execution_ok x → execution_ok (f x)) →
  calls_ok w →
  calls_ok (set_calls (alter (on_execution f) r0 (calls w)) w).
Proof.
  intros Hg Hf. apply calls_ok_view; [done|apply length_alter|].
  intros r c' Hc'. simpl in Hc'.
  destruct (lookup_alter_inv _ _ _ _ _ Hc') as (c & Hc & [[_ ->]|[_ ->]]).
  - exists c. eauto.
  - exists c. split; [done|]. by apply call_ok_on_execution.
Qed.

Lemma calls_ok_set_result w r0 c0 p m :
  calls w !! r0 = Some c0 →
  (call_ok (thrown w !! r0) c0 →
   call_ok (thrown w !! r0) (set_result p c0)) →
  calls_ok w →
  calls_ok (set_calls (alter (set_result p) r0 (calls w)) (set_cache m w)).
Proof.
  intros Hc0 Himp. apply calls_ok_view; [done|apply length_alter|].
  intros r c' Hc'. simpl in Hc'.
  destruct (lookup_alter_inv _ _ _ _ _ Hc') as (c & Hc & [[_ ->]|[<- ->]]).
  - exists c. eauto.
  - exists c. split; [done|]. rewrite Hc0 in Hc. by injection Hc as <-.
Qed.

(** A state with one more call. *)
Lemma calls_ok_push w w' c0 :
  calls w' = calls w ++ [c0] →
  (∀ r, r < length (calls w) → thrown w' !! r = thrown w !! r) →
  (∀ r, is_Some (thrown w' !! r) → r ≤ length (calls w)) →
  call_ok (thrown w' !! length (calls w)) c0 →
  calls_ok w → calls_ok w'.
Proof.
  intros Hcalls Hold Hdom' H0 [Hok Hdom]. split.
  - intros r c. rewrite Hcalls.
    intros [[Hlt Hc]|[-> <-]]%lookup_snoc_Some.
    + rewrite Hold by done. by apply Hok.
    + done.
  - intros r Hr. rewrite Hcalls, length_app. simpl.
    specialize (Hdom' r Hr). lia.
Qed.

Lemma calls_ok_push_same w c0 m :
  call_ok None c0 →
  calls_ok w → calls_ok (push_call c0 (set_cache m w)).
Proof.
  intros H0 Hw. eapply (calls_ok_push w _ c0); try done.
  - destruct Hw as [_ Hdom]. simpl. intros r Hr.
    specialize (Hdom r Hr). lia.
  - simpl. destruct Hw as [_ Hdom].
    destruct (thrown w !! length (calls w)) as [t|] eqn:Ht; [|done].
    specialize (Hdom (length (calls w))). rewrite Ht in Hdom.
    specialize (Hdom ltac:(by eexists)). lia.
Qed.

Lemma step_calls_ok w e : calls_ok w → calls_ok (step w e).
Proof.
  intros Hw.
  destruct e as [signal| |r0 code|r0 error|s|r0|r0|signal error]; simpl.
  - unfold run. repeat case_match.
    + by apply (calls_ok_push_same w _ (memoizedCache w)).
    + by apply (calls_ok_push_same w _ (memoizedCache w)).
    + apply calls_ok_push_same; [|done]. split; [done|].
      simpl. intros x [= <-]. apply execution_ok_executor.
  - unfold memoize. by case_match.
  - apply calls_ok_alter;
      [apply gentle_emit_close|apply execution_ok_emit_close|done].
  - apply calls_ok_alter;
      [apply gentle_emit_error|apply execution_ok_emit_error|done].
  - case_bool_decide; simpl; [done|].
    revert Hw. apply calls_ok_view; [done|apply length_fmap|].
    intros r c' Hc'. simpl in Hc'.
    apply list_lookup_fmap_Some_1 in Hc' as (c & -> & Hc).
    exists c. split; [done|].
    apply call_ok_on_execution;
      [apply gentle_emit_abort|apply execution_ok_emit_abort].
  - apply calls_ok_alter;
      [apply gentle_fire_timer|apply execution_ok_fire_timer|done].
  - unfold resume.
    destruct (calls w !! r0) as [[[x0|] [| |e0]]|] eqn:Hc0; try done.
    + destruct (ex_promiseToSend x0) as [| |cause] eqn:Hx0; [done| |].
      * apply (calls_ok_set_result w r0 _ _ (memoizedCache w) Hc0); [|done].
        intros [_ Hex]. split; [done|]. apply Hex.
      * apply (calls_ok_set_result w r0 _ _ _ Hc0); [|done].
        intros [_ Hex]. split; [|apply Hex]. by exists cause.
    + destruct (thrown w !! r0) as [[k0 cause]|] eqn:Ht0; [|done].
      apply (calls_ok_set_result w r0 _ _ _ Hc0); [|done].
      rewrite Ht0. by intros _.
  - unfold run_spawn_throws. repeat case_match.
    + by apply (calls_ok_push_same w _ (memoizedCache w)).
    + by apply (calls_ok_push_same w _ (memoizedCache w)).
    + eapply (calls_ok_push w _ {| execution := None; result := Pending |});
        [done| | | |done]; simpl.
      * intros r Hr. apply lookup_insert_ne. lia.
      * intros r [Hr|Hr]%lookup_insert_is_Some; [lia|].
        destruct Hr as [_ Hr]. destruct Hw as [_ Hdom].
        specialize (Hdom r Hr). lia.
      * rewrite lookup_insert_eq. split; [by eexists|done].
Qed.

Lemma reachable_calls_ok l i cmd w : reachable l i cmd w → calls_ok w.
Proof.
  apply reachable_ind_steps.
  - split.
    + by intros r c.
    + intros r [? Hr]. simpl in Hr. by rewrite lookup_empty in Hr.
  - apply step_calls_ok.
Qed.

(** What a caller of [run] can be rejected with.  In every state of the
    object, a rejected call is of one of three kinds.  It was stopped at
    the guard, before any attempt to spawn, and carries the [AbortError] of
    [handleAbortedSignal].  Or [spawn] threw during the call, and it
    carries what [throw new error] threw for the value that [spawn]
    threw.  Or it spawned, and it carries what [throw new error] threw
    for the value that rejected [promiseToSend].  So the value is the
    [AbortError] of the guard, the [TypeError] of [new] or an object made
    by [new], and never the [AbortError] of [abortHandler]. *)
Theorem rejections_of_run l i cmd w r c (err : JsValue) :
  reachable l i cmd w →
  calls w !! r = Some c → result c = Rejected err →
  ((execution c = None ∧ thrown w !! r = None
    ∧ err = raised AbortedBeforeStart)
   ∨ (execution c = None
      ∧ ∃ k error, thrown w !! r = Some (k, error) ∧ err = throw_new error)
   ∨ (∃ x cause, execution c = Some x
        ∧ ex_promiseToSend x = Rejected cause ∧ err = throw_new cause))
  ∧ (err = raised AbortedBeforeStart
     ∨ err = TypeError "error is not a constructor"
     ∨ ∃ cls, err = JsInstance cls)
  ∧ err ≠ raised AbortedDuringExecution.
Proof.
  intros Hw Hc Hr.
  destruct (proj1 (reachable_calls_ok _ _ _ _ Hw) r c Hc) as [Hres _].
  assert (∀ v, throw_new v = TypeError "error is not a constructor"
               ∨ ∃ cls, throw_new v = JsInstance cls) as Hnew.
  { intros []; simpl; eauto. }
  unfold result_ok in Hres. rewrite Hr in Hres.
  destruct (execution c) as [x|].
  - destruct Hres as (cause & Hcause & ->). split_and!.
    + right. right. by exists x, cause.
    + right. apply Hnew.
    + by destruct cause.
  - destruct (thrown w !! r) as [[k error]|]; subst err.
    + split_and!.
      * right. left. split; [done|]. by exists k, error.
      * right. apply Hnew.
      * by destruct error.
    + split_and!; [by left|by left|done].
Qed.

Lemma rejections_of_run_witness :
  TypeError "error is not a constructor" ≠ raised AbortedDuringExecution.
Proof.
  eapply (rejections_of_run 7 1 "sleep 5"
            (steps (constructor 7 1 "sleep 5")
               [CallRun (Some 0); SignalAbort 0; Resume 0]) 0
            {| execution := Some (abortHandler
                 (executor (constructor 7 1 "sleep 5") (Some 0) "1_false"));
               result := Rejected (TypeError "error is not a constructor") |}).
  - by eexists.
  - by vm_compute.
  - done.
Defined.

(** A run that is fulfilled after spawning has been cleaned up: in every
    state of the object, [kill()] has been called on the child of such a
    call and neither of its two listeners is attached any more. *)
Theorem fulfilled_run_is_cleaned_up l i cmd w r c x :
  reachable l i cmd w →
  calls w !! r = Some c → execution c = Some x → result c = Fulfilled →
  ex_promiseToSend x = Fulfilled
  ∧ ex_child x = {| killed := true; onClose := false; onError := false |}.
Proof.
  intros Hw Hc Hx Hr.
  destruct (proj1 (reachable_calls_ok _ _ _ _ Hw) r c Hc) as [Hres Hex].
  unfold result_ok in Hres. rewrite Hx, Hr in Hres.
  destruct (Hex x Hx) as (H1 & H2 & H3 & _). split; [done|].
  specialize (H3 Hres). rewrite H3 in H2.
  destruct (ex_child x) as [kd oc oe]; simpl in *. subst kd.
  destruct oc; [done|]. by subst oe.
Qed.

Lemma fulfilled_run_is_cleaned_up_witness :
  ex_child (closeHandler (Some 0%Z)
              (executor (constructor 7 1 "exit 0") None "1_undefined"))
  = {| killed := true; onClose := false; onError := false |}.
Proof.
  eapply (fulfilled_run_is_cleaned_up 7 1 "exit 0"
            (steps (constructor 7 1 "exit 0")
               [CallRun None; ChildClose 0 (Some 0%Z); Resume 0]) 0
            {| execution := Some (closeHandler (Some 0%Z)
                 (executor (constructor 7 1 "exit 0") None "1_undefined"));
               result := Fulfilled |}).
  - by eexists.
  - by vm_compute.
  - done.
  - done.
Defined.

(** [abortHandler] is attached to a signal only while the timer armed at
    the spawn has not fired: in every state of the object, a run whose
    timer has fired, or that was started without a signal, has no
    subscription.  So no subscription outlives the 5000 ms of the timer. *)
Theorem subscription_needs_armed_timer l i cmd w r c x :
  reachable l i cmd w →
  calls w !! r = Some c → execution c = Some x →
  ex_timer x = false ∨ ex_signal x = None →
  ex_abortListener x = false.
Proof.
  intros Hw Hc Hx Hor.
  destruct (proj1 (reachable_calls_ok _ _ _ _ Hw) r c Hc) as [_ Hex].
  destruct (Hex x Hx) as (_ & _ & _ & H4).
  destruct (ex_abortListener x); [|done].
  destruct (H4 eq_refl) as [Htm Hsig].
  destruct Hor as [Hor|Hor]; rewrite Hor in *; [done|].
  by apply is_Some_None in Hsig.
Qed.

Lemma subscription_needs_armed_timer_witness :
  ex_abortListener (timeoutHandler
                      (executor (constructor 7 1 "sleep 5") (Some 0) "1_false"))
  = false.
Proof.
  eapply (subscription_needs_armed_timer 7 1 "sleep 5"
            (steps (constructor 7 1 "sleep 5")
               [CallRun (Some 0); TimerFires 0]) 0
            {| execution := Some (timeoutHandler
                 (executor (constructor 7 1 "sleep 5") (Some 0) "1_false"));
               result := Pending |}).
  - by eexists.
  - by vm_compute.
  - done.
  - by left.
Defined.

End CallInvariant.

(** * Invariants of the keys *)

Section KeyInvariant.

Implicit Types (w : World) (e : Event) (c : Call) (x : Execution).
Implicit Types (t : option (string * JsValue)).

Lemma flying_key_held t c k : flying_key t c = Some k → held_key t c = Some k.
Proof. unfold flying_key, held_key. by repeat case_match. Qed.

Lemma held_key_on_execution (f : Execution → Execution) t c :
  gentle f → held_key t (on_execution f c) = held_key t c.
Proof.
  intros Hf. destruct c as [[x|] p]; unfold held_key; simpl; [|done].
  destruct (Hf x) as (-> & _). done.
Qed.

Lemma flying_key_on_execution (f : Execution → Execution) t c :
  gentle f → flying_key t (on_execution f c) = flying_key t c.
Proof.
  intros Hf. destruct c as [[x|] p]; unfold flying_key; simpl; [|done].
  destruct (Hf x) as (-> & _). done.
Qed.

Lemma held_key_rejected t c (err : JsValue) :
  held_key t (set_result (Rejected err) c) = None.
Proof. unfold held_key. simpl. by destruct (execution c). Qed.

Lemma flying_key_rejected t c (err : JsValue) :
  flying_key t (set_result (Rejected err) c) = None.
Proof. unfold flying_key. simpl. by destruct (execution c). Qed.

(** Events that change neither the table nor [thrown] nor the keys that
    the calls hold, except that a flying key may land. *)
Lemma keys_kept_view w w' :
  memoizedCache w' = memoizedCache w →
  thrown w' = thrown w →
  (∀ r c', calls w' !! r = Some c' →
     ∃ c, calls w !! r = Some c
          ∧ held_key (thrown w !! r) c' = held_key (thrown w !! r) c
          ∧ (flying_key (thrown w !! r) c' = None
             ∨ flying_key (thrown w !! r) c'
               = flying_key (thrown w !! r) c)) →
  keys_kept w → keys_kept w'.
Proof.
  intros Hcache Ht Hview [K1 K2]. split.
  - intros r c' k Hc' Hk. rewrite Hcache. rewrite Ht in Hk.
    destruct (Hview r c' Hc') as (c & Hc & Hh & _).
    apply (K1 r c k Hc). by rewrite <- Hh.
  - intros r r' c1' c2' k Hc1' Hc2' Hf Hh. rewrite Ht in Hf, Hh.
    destruct (Hview r c1' Hc1') as (c1 & Hc1 & _ & [Hn|He]); [congruence|].
    destruct (Hview r' c2' Hc2') as (c2 & Hc2 & Hh2 & _).
    apply (K2 r r' c1 c2 k Hc1 Hc2); congruence.
Qed.

Lemma keys_kept_alter_gentle w r0 (f : Execution → Execution) :
  gentle f →
  keys_kept w →
  keys_kept (set_calls (alter (on_execution f) r0 (calls w)) w).
Proof.
  intros Hf. apply keys_kept_view; [done|done|].
  intros r c' Hc'. simpl in Hc'.
  destruct (lookup_alter_inv _ _ _ _ _ Hc') as (c & Hc & [[_ ->]|[_ ->]]).
  - exists c. eauto.
  - exists c. split_and!; [done| |right].
    + by apply held_key_on_execution.
    + by apply flying_key_on_execution.
Qed.

Lemma keys_kept_fmap_gentle w (f : Execution → Execution) (a : gset sigref) :
  gentle f →
  keys_kept w →
  keys_kept (set_calls (on_execution f <$> calls w) (set_aborted a w)).
Proof.
  intros Hf. apply keys_kept_view; [done|done|].
  intros r c' Hc'. simpl in Hc'.
  apply list_lookup_fmap_Some_1 in Hc' as (c & -> & Hc).
  exists c. split_and!; [done| |right].
  - by apply held_key_on_execution.
  - by apply flying_key_on_execution.
Qed.

(** A table that only grows keeps the invariant. *)
Lemma keys_kept_grow w m :
  (∀ k, is_Some (memoizedCache w !! k) → is_Some (m !! k)) →
  keys_kept w → keys_kept (set_cache m w).
Proof.
  intros Hm [K1 K2]. split; [|done].
  intros r c k Hc Hk. apply Hm. by apply (K1 r c k).
Qed.

(** A state with one more call, whose key, if it holds one, was not in
    the table. *)
Lemma keys_kept_push w w' c0 :
  calls w' = calls w ++ [c0] →
  (∀ r, r < length (calls w) → thrown w' !! r = thrown w !! r) →
  (∀ k, is_Some (memoizedCache w !! k) → is_Some (memoizedCache w' !! k)) →
  (∀ k, held_key (thrown w' !! length (calls w)) c0 = Some k →
        is_Some (memoizedCache w' !! k) ∧ memoizedCache w !! k = None) →
  keys_kept w → keys_kept w'.
Proof.
  intros Hcalls Hold Hm H0 [K1 K2]. split.
  - intros r c k. rewrite Hcalls.
    intros [[Hlt Hc]|[-> <-]]%lookup_snoc_Some Hk.
    + rewrite Hold in Hk by done. apply Hm. by apply (K1 r c k).
    + by apply H0.
  - intros r r' c c' k. rewrite Hcalls.
    intros [[Hlt Hc]|[-> <-]]%lookup_snoc_Some
           [[Hlt' Hc']|[-> <-]]%lookup_snoc_Some Hf Hh.
    + rewrite Hold in Hf, Hh by done. by apply (K2 r r' c c' k).
    + exfalso. destruct (H0 k Hh) as [_ Hnone].
      rewrite Hold in Hf by done. apply flying_key_held in Hf.
      destruct (K1 r c k Hc Hf) as [? ?]. congruence.
    + exfalso. apply flying_key_held in Hf.
      destruct (H0 k Hf) as [_ Hnone]. rewrite Hold in Hh by done.
      destruct (K1 r' c' k Hc' Hh) as [? ?]. congruence.
    + done.
Qed.

Lemma keys_kept_push_idle w c0 :
  (∀ t, held_key t c0 = None) →
  keys_kept w → keys_kept (push_call c0 w).
Proof.
  intros H0. apply (keys_kept_push w _ c0); try done.
  intros k Hk. by rewrite H0 in Hk.
Qed.

(** The continuation of a call whose [promiseToSend] was rejected gives
    up the key of the call. *)
Lemma keys_kept_resume_rejected w r0 c0 k0 (err : JsValue) :
  calls w !! r0 = Some c0 →
  flying_key (thrown w !! r0) c0 = Some k0 →
  keys_kept w →
  keys_kept
    (set_calls (alter (set_result (Rejected err)) r0 (calls w))
       (set_cache (delete k0 (memoizedCache w)) w)).
Proof.
  intros Hc0 Hf0 [K1 K2]. split.
  - intros r c' k Hc' Hk. simpl in *.
    destruct (lookup_alter_inv _ _ _ _ _ Hc') as (c & Hc & [[Hne ->]|[_ ->]]).
    + rewrite lookup_delete_ne; [by apply (K1 r c k)|].
      intros <-. apply Hne. by apply (K2 r0 r c0 c k0 Hc0 Hc).
    + by rewrite held_key_rejected in Hk.
  - intros r r' c1' c2' k Hc1' Hc2' Hf Hh. simpl in *.
    destruct (lookup_alter_inv _ _ _ _ _ Hc1')
      as (c1 & Hc1 & [[_ ->]|[_ ->]]);
      destruct (lookup_alter_inv _ _ _ _ _ Hc2')
        as (c2 & Hc2 & [[_ ->]|[_ ->]]).
    + by apply (K2 r r' c1 c2 k).
    + by rewrite held_key_rejected in Hh.
    + by rewrite flying_key_rejected in Hf.
    + by rewrite flying_key_rejected in Hf.
Qed.

Lemma keys_kept_resume_fulfilled w r0 x0 :
  calls w !! r0 = Some {| execution := Some x0; result := Pending |} →
  keys_kept w →
  keys_kept (set_calls (alter (set_result Fulfilled) r0 (calls w)) w).
Proof.
  intros Hc0. apply keys_kept_view; [done|done|].
  intros r c' Hc'. simpl in Hc'.
  destruct (lookup_alter_inv _ _ _ _ _ Hc') as (c & Hc & [[_ ->]|[<- ->]]).
  - exists c. eauto.
  - exists c. rewrite Hc0 in Hc. injection Hc as <-.
    split_and!; [by rewrite Hc0|done|by left].
Qed.

Lemma step_keys_kept w e : keys_kept w → keys_kept (step w e).
Proof.
  intros Hw.
  destruct e as [signal| |r0 code|r0 error|s|r0|r0|signal error]; simpl.
  - unfold run. destruct (truthy (signal_aborted w signal)).
    + by apply keys_kept_push_idle.
    + case_bool_decide as Hin.
      * by apply keys_kept_push_idle.
      * eapply (keys_kept_push w _); [done|done| | |done]; simpl.
        -- intros k Hk. apply lookup_insert_is_Some.
           destruct (decide (buildCacheKey w signal = k)); eauto.
        -- intros k [= <-]. split; [by rewrite lookup_insert_eq|].
           by apply eq_None_not_Some.
  - unfold memoize. case_match; [done|]. simpl.
    apply keys_kept_grow; [|done].
    intros k Hk. apply lookup_insert_is_Some.
    destruct (decide (pretty (id w) +:+ "_undefined" = k)); eauto.
  - apply keys_kept_alter_gentle; [apply gentle_emit_close|done].
  - apply keys_kept_alter_gentle; [apply gentle_emit_error|done].
  - case_bool_decide; [done|].
    apply keys_kept_fmap_gentle; [apply gentle_emit_abort|done].
  - apply keys_kept_alter_gentle; [apply gentle_fire_timer|done].
  - unfold resume.
    destruct (calls w !! r0) as [[[x0|] [| |e0]]|] eqn:Hc0; try done.
    + destruct (ex_promiseToSend x0) as [| |cause] eqn:Hx0; [done| |].
      * by eapply keys_kept_resume_fulfilled.
      * by eapply keys_kept_resume_rejected.
    + destruct (thrown w !! r0) as [[k0 cause]|] eqn:Ht0; [|done].
      eapply keys_kept_resume_rejected; [done| |done].
      unfold flying_key. simpl. by rewrite Ht0.
  - unfold run_spawn_throws. destruct (truthy (signal_aborted w signal)).
    + by apply keys_kept_push_idle.
    + case_bool_decide as Hin.
      * by apply keys_kept_push_idle.
      * eapply (keys_kept_push w _ {| execution := None; result := Pending |});
          [done| | | |done]; simpl.
        -- intros r Hr. apply lookup_insert_ne. lia.
        -- intros k Hk. apply lookup_insert_is_Some.
           destruct (decide (buildCacheKey w signal = k)); eauto.
        -- rewrite lookup_insert_eq. unfold held_key. simpl.
           intros k [= <-]. split; [by rewrite lookup_insert_eq|].
           by apply eq_None_not_Some.
Qed.

Lemma reachable_keys_kept l i cmd w : reachable l i cmd w → keys_kept w.
Proof.
  apply reachable_ind_steps.
  - split; intros r; intros; simplify_eq/=.
  - apply step_keys_kept.
Qed.

Lemma reachable_steps l i cmd w es :
  reachable l i cmd w → reachable l i cmd (steps w es).
Proof.
  intros [es0 ->]. exists (es0 ++ es). unfold steps. by rewrite foldl_app.
Qed.

End KeyInvariant.

Section KeyProperties.

Implicit Types (w : World) (e : Event) (c : Call) (x : Execution).

(** At most one pending run per key.  In every state of the object, the
    key of a call that spawned and whose promise is pending is in the
    table, and no other call that spawned under the same key is pending
    or fulfilled.  This bounds the pending promises, not the processes:
    the child of a run that failed is not killed and may still be alive
    when the next run under the key spawns. *)
Theorem one_pending_run_per_key l i cmd w r r' c c' x x' :
  reachable l i cmd w →
  calls w !! r = Some c → execution c = Some x → result c = Pending →
  calls w !! r' = Some c' → execution c' = Some x' →
  result c' = Pending ∨ result c' = Fulfilled →
  ex_cacheKey x' = ex_cacheKey x →
  r = r' ∧ is_Some (memoizedCache w !! ex_cacheKey x).
Proof.
  intros Hw Hc Hx Hr Hc' Hx' Hr' Hkey.
  destruct (reachable_keys_kept _ _ _ _ Hw) as [K1 K2].
  assert (flying_key (thrown w !! r) c = Some (ex_cacheKey x)) as Hf.
  { unfold flying_key. by rewrite Hx, Hr. }
  assert (held_key (thrown w !! r') c' = Some (ex_cacheKey x)) as Hh.
  { unfold held_key. rewrite Hx', Hkey. by destruct Hr' as [-> | ->]. }
  split.
  - by apply (K2 r r' c c' (ex_cacheKey x)).
  - apply (K1 r c _ Hc). by apply flying_key_held.
Qed.

Lemma one_pending_run_per_key_witness :
  is_Some (memoizedCache
             (steps (constructor 7 1 "sleep 5")
                [CallRun (Some 0); CallRun (Some 1); CallRun None])
           !! "1_false").
Proof.
  eapply proj2, (one_pending_run_per_key 7 1 "sleep 5"
            (steps (constructor 7 1 "sleep 5")
               [CallRun (Some 0); CallRun (Some 1); CallRun None]) 0 0
            {| execution :=
                 Some (executor (constructor 7 1 "sleep 5") (Some 0) "1_false");
               result := Pending |}
            {| execution :=
                 Some (executor (constructor 7 1 "sleep 5") (Some 0) "1_false");
               result := Pending |}
            (executor (constructor 7 1 "sleep 5") (Some 0) "1_false")
            (executor (constructor 7 1 "sleep 5") (Some 0) "1_false")).
  - by eexists.
  - by vm_compute.
  - done.
  - done.
  - by vm_compute.
  - done.
  - by left.
  - done.
Defined.

(** A fulfilled run is memoised for good.  Once a call that spawned is
    fulfilled, its key stays in the table whatever happens afterwards, so
    every later call of [run] that computes this key is fulfilled at once
    and spawns nothing. *)
Theorem fulfilled_run_is_memoised_for_good l i cmd w r c x es :
  reachable l i cmd w →
  calls w !! r = Some c → execution c = Some x → result c = Fulfilled →
  is_Some (memoizedCache (steps w es) !! ex_cacheKey x)
  ∧ ∀ signal,
      truthy (signal_aborted (steps w es) signal) = false →
      buildCacheKey (steps w es) signal = ex_cacheKey x →
      step (steps w es) (CallRun signal)
      = push_call {| execution := None; result := Fulfilled |} (steps w es)
      ∧ spawnCount (step (steps w es) (CallRun signal))
        = spawnCount (steps w es).
Proof.
  intros Hw Hc Hx Hr.
  destruct (steps_evolves w es r c Hc) as (c' & Hc' & Hk & _ & Hr' & _).
  rewrite Hx in Hk. simpl in Hk.
  destruct (execution c') as [x'|] eqn:Hx'; simplify_eq/=.
  rewrite Hr in Hr'. specialize (Hr' ltac:(done)).
  destruct (reachable_keys_kept _ _ _ _ (reachable_steps _ _ _ _ es Hw))
    as [K1 _].
  assert (is_Some (memoizedCache (steps w es) !! ex_cacheKey x)) as Hin.
  { apply (K1 r c' _ Hc'). unfold held_key. rewrite Hx', Hr'. by f_equal. }
  split; [done|]. intros signal Hab Hkey.
  assert (run signal (steps w es)
          = push_call {| execution := None; result := Fulfilled |}
              (steps w es)) as Hrun.
  { apply run_hit; [done|]. by rewrite Hkey. }
  simpl. rewrite Hrun. split; [done|].
  rewrite spawnCount_push. simpl. lia.
Qed.

Lemma fulfilled_run_is_memoised_for_good_witness :
  is_Some (memoizedCache
             (steps (steps (constructor 7 1 "exit 0")
                       [CallRun None; ChildClose 0 (Some 0%Z); Resume 0])
                [ChildError 0 (NodeError "EPIPE"); Resume 0; CallRun (Some 0);
                 ChildError 3 (NodeError "EPIPE"); Resume 3])
           !! "1_undefined").
Proof.
  eapply proj1, (fulfilled_run_is_memoised_for_good 7 1 "exit 0"
            (steps (constructor 7 1 "exit 0")
               [CallRun None; ChildClose 0 (Some 0%Z); Resume 0]) 0
            {| execution := Some (closeHandler (Some 0%Z)
                 (executor (constructor 7 1 "exit 0") None "1_undefined"));
               result := Fulfilled |}
            (closeHandler (Some 0%Z)
               (executor (constructor 7 1 "exit 0") None "1_undefined"))).
  - by eexists.
  - by vm_compute.
  - done.
  - done.
Defined.



End KeyProperties.

(** * The key as a string *)

Section KeyString.

Implicit Types (w : World).

Lemma free_of_pretty_N_go (x : N) s :
  free_of "_"%char s = true → free_of "_"%char (pretty_N_go x s) = true.
Proof.
  revert s. induction (N.lt_wf_0 x) as [x _ IH]; intros s Hs.
  assert (x = 0 ∨ 0 < x)%N as [->|Hx] by lia.
  - by rewrite pretty_N_go_0.
  - rewrite pretty_N_go_step by done. apply IH.
    { by apply N.div_lt. }
    simpl. rewrite Hs, andb_true_r.
    unfold pretty_N_char. by repeat case_match.
Qed.

Lemma free_of_pretty_Z (z : Z) : free_of "_"%char (pretty z) = true.
Proof.
  assert (∀ p : positive, free_of "_"%char (pretty p) = true) as Hpos.
  { intros p. unfold pretty, pretty_positive, pretty, pretty_N.
    case_decide; [done|]. by apply free_of_pretty_N_go. }
  unfold pretty, pretty_Z. destruct z as [|p|p]; [done|apply Hpos|].
  simpl. apply Hpos.
Qed.

(** Two strings that are free of a character and are each followed by
    that character end at the same place. *)
Lemma app_separator_inj (a : Ascii.ascii) (s1 s2 t1 t2 : string) :
  free_of a s1 = true → free_of a s2 = true →
  s1 +:+ String a t1 = s2 +:+ String a t2 →
  s1 = s2 ∧ t1 = t2.
Proof.
  revert s2. induction s1 as [|b1 s1 IH]; intros [|b2 s2] H1 H2 Heq;
    simpl in *.
  - by injection Heq as ->.
  - injection Heq as -> _. by rewrite Ascii.eqb_refl in H2.
  - injection Heq as -> _. by rewrite Ascii.eqb_refl in H1.
  - injection Heq as -> Heq.
    apply andb_true_iff in H1 as [_ H1]. apply andb_true_iff in H2 as [_ H2].
    destruct (IH s2 H1 H2 Heq) as [-> ->]. done.
Qed.

(** The key can be read back.  For two objects whose ids are safe
    integers, two keys built by [buildCacheKey] are the same string only
    for the same id and the same reading of [signal?.aborted]: the
    underscore of the template separates the two parts without
    ambiguity, because the rendering of such an id has no underscore. *)
Theorem key_determines_id_and_flag w1 w2 s1 s2 :
  safe_integer (id w1) → safe_integer (id w2) →
  buildCacheKey w1 s1 = buildCacheKey w2 s2 →
  id w1 = id w2 ∧ signal_aborted w1 s1 = signal_aborted w2 s2.
Proof.
  unfold buildCacheKey. intros _ _ Heq.
  apply app_separator_inj in Heq as [Hid Hflag];
    [|apply free_of_pretty_Z..].
  split; [by apply (inj pretty)|].
  destruct (signal_aborted w1 s1) as [[]|],
           (signal_aborted w2 s2) as [[]|]; done.
Qed.

Lemma key_determines_id_and_flag_witness :
  id (constructor 7 1 "sleep 5") = id (constructor 8 1 "exit 0")
  ∧ signal_aborted (constructor 7 1 "sleep 5") (Some 0)
    = signal_aborted (constructor 8 1 "exit 0") (Some 1).
Proof.
  apply (key_determines_id_and_flag
           (constructor 7 1 "sleep 5") (constructor 8 1 "exit 0")
           (Some 0) (Some 1)).
  - by vm_compute.
  - by vm_compute.
  - by vm_compute.
Defined.

End KeyString.
